(** * Regression performance metrics of [Training_and_Test_Errors.ipynb]

    The notebook computes the training error of a nearest-neighbours model:

    - cell 8:   [mse = ((y_train - y_train_) ** 2).mean()]
    - cell 12:  [rmse = np.sqrt(mse)]

    [y_train] is a pandas [Series] of float64 labels, [y_train_] the numpy
    array returned by [predict].  Cell 2 (markdown) gives the formulas of
    MAE and R^2; no cell computes them, and the scikit-learn functions named
    in cell 9 are library code.

    Two readings of the numbers are used.

    - Module [F64] reads a float64 as what it is: a binary64 floating-point
      number, every operation rounded to nearest even, with overflow to an
      infinity, underflow to zero and NaN.  The operations are Rocq's
      primitive floats, specified by [SpecFloat]; the sum is numpy's
      pairwise summation.  Everything that is said about the values of
      cells 8 and 12 is said on this reading.
    - The type [num] reads a float64 as an extended real (a finite real,
      an infinity or NaN) with exact arithmetic on finite values.  It is
      kept for two properties that compare two runs of the same
      expression (exchanged arguments, a NaN position left out) and is
      used for nothing else. *)

From Stdlib Require Import Floats ZArith QArith.
From Stdlib Require Uint63.
From Stdlib Require Import Reals List Arith Lia Bool.
Import ListNotations.

Local Open Scope R_scope.

(** * Failures and arrays *)

(** The only exception the array operations used here raise. *)
Inductive exn : Type :=
| ValueError.

Inductive result (A : Type) : Type :=
| Ok (a : A)
| Raise (e : exn).

Arguments Ok {A} a.
Arguments Raise {A} e.

Definition bind {A B : Type} (r : result A) (k : A -> result B) : result B :=
  match r with
  | Ok a => k a
  | Raise e => Raise e
  end.

Notation "x <- r ;; k" := (bind r (fun x => k))
  (at level 61, r at next level, right associativity).

(** Two arrays taken position by position, up to the shorter one. *)
Fixpoint zip_with {A B C : Type} (f : A -> B -> C)
    (u : list A) (v : list B) : list C :=
  match u, v with
  | a :: u', b :: v' => f a b :: zip_with f u' v'
  | _, _ => []
  end.

(** * numpy's pairwise summation

    The sum of an array as numpy's [add.reduce] takes it, for any element
    type with an addition (numpy's loop is a template over the element
    type).  Fewer than 8 elements are added in a loop, in index order; up
    to 128 elements are added into 8 accumulators, which are then
    combined, the elements beyond the last full block of 8 being added in
    order; a longer array is split in two parts, the first a multiple of
    8. *)

Section PairwiseSum.

Context {A : Type}.
Variable add : A -> A -> A.
Variable zero : A.

Definition loop_sum (a : list A) (res : A) : A := fold_left add a res.

Definition combine8 (r : list A) : A :=
  match r with
  | [r0; r1; r2; r3; r4; r5; r6; r7] =>
      add (add (add r0 r1) (add r2 r3)) (add (add r4 r5) (add r6 r7))
  | _ => zero
  end.

Fixpoint add_blocks (k : nat) (r a : list A) : list A * list A :=
  match k with
  | O => (r, a)
  | S k' => add_blocks k' (zip_with add r (firstn 8 a)) (skipn 8 a)
  end.

Definition block_sum (a : list A) : A :=
  let '(r, rest) := add_blocks (length a / 8 - 1) (firstn 8 a) (skipn 8 a) in
  loop_sum rest (combine8 r).

(** [fuel] bounds the depth of the splitting; the length is enough. *)
Fixpoint pairwise_sum (fuel : nat) (a : list A) : A :=
  let n := length a in
  if (n <? 8)%nat then loop_sum a zero
  else if (n <=? 128)%nat then block_sum a
  else match fuel with
       | O => block_sum a
       | S fuel' =>
           let n2 := (n / 2 - (n / 2) mod 8)%nat in
           add (pairwise_sum fuel' (firstn n2 a))
               (pairwise_sum fuel' (skipn n2 a))
       end.

End PairwiseSum.

(** * The float64 reading *)

Module F64.

(** A one-dimensional array of float64. *)
Definition series : Type := list float.

(** [y - y_] for a Series [y] and an array [y_].  Equal lengths are
    subtracted position by position, each difference a float64
    subtraction; an array of length one is broadcast over the Series; any
    other pair of shapes is refused ("operands could not be broadcast
    together", or the length of the result does not match the index of
    [y]). *)
Definition series_sub (y y_ : series) : result series :=
  if Nat.eqb (length y) (length y_) then Ok (zip_with PrimFloat.sub y y_)
  else match y_ with
       | [b] => Ok (map (fun a => a - b)%float y)
       | _ => Raise ValueError
       end.

(** [y + c] for a scalar [c]. *)
Definition series_add_scalar (y : series) (c : float) : series :=
  map (fun a => a + c)%float y.

(** [d ** 2]: numpy squares each element, [x * x]. *)
Definition series_pow2 (d : series) : series := map (fun x => x * x)%float d.

(** The sum of a float64 array: the reduction starts from the identity of
    the addition and adds the pairwise sum of the elements. *)
Definition np_sum (a : series) : float :=
  (0 + pairwise_sum PrimFloat.add 0%float (length a) a)%float.

(** A non-negative integer, and a count of elements, as a float64. *)
Definition of_Z (k : Z) : float := PrimFloat.of_uint63 (Uint63.of_Z k).
Definition of_nat (n : nat) : float := of_Z (Z.of_nat n).

(** [Series.mean()], with the default [skipna=True]: the NaN entries are
    replaced by 0 in the sum and left out of the count; the sum is divided
    by the count, and the mean of no entry is NaN. *)
Definition series_mean (d : series) : float :=
  let filled := map (fun a => if PrimFloat.is_nan a then 0%float else a) d in
  let count := length (filter (fun a => negb (PrimFloat.is_nan a)) d) in
  if Nat.ltb 0 count then (np_sum filled / of_nat count)%float
  else PrimFloat.nan.

(** Cell 8: [((y_train - y_train_) ** 2).mean()]. *)
Definition mse (y y_ : series) : result float :=
  d <- series_sub y y_ ;;
  Ok (series_mean (series_pow2 d)).

(** Cell 12: [np.sqrt(mse)]. *)
Definition rmse (y y_ : series) : result float :=
  m <- mse y y_ ;;
  Ok (PrimFloat.sqrt m).

(** The claims' formula, position by position: [sq_diff y y_ i] is
    [(y[i] - y_[i])^2] in float64, and [sum_upto n f] adds [f 0], ...,
    [f (n-1)] in this order. *)
Definition sq_diff (y y_ : series) (i : nat) : float :=
  let d := (nth i y 0 - nth i y_ 0)%float in (d * d)%float.

Fixpoint sum_upto (n : nat) (f : nat -> float) : float :=
  match n with
  | O => 0%float
  | S k => (sum_upto k f + f k)%float
  end.

(** The claims' arithmetic mean of the squared differences, every operation
    in float64 and the sum taken from left to right. *)
Definition mean_sq_diff (y y_ : series) : float :=
  (sum_upto (length y) (sq_diff y y_) / of_nat (length y))%float.

(** [y[i] == y_[i]] at every position of two arrays of finite values. *)
Definition same_finite (y y_ : series) : Prop :=
  Forall2 (fun a b => PrimFloat.is_finite a = true /\ (a =? b)%float = true)
    y y_.

End F64.

(** Nine labels, the tenths 0.1 to 0.9 as float64, against predictions of
    which the fifth is NaN; [without_fifth] leaves that position out. *)
Definition nine_labels : F64.series :=
  [0x1.999999999999ap-4; 0x1.999999999999ap-3; 0x1.3333333333333p-2;
   0x1.999999999999ap-2; 0x1p-1; 0x1.3333333333333p-1;
   0x1.6666666666666p-1; 0x1.999999999999ap-1; 0x1.ccccccccccccdp-1]%float.

Definition nine_guesses : F64.series :=
  [0; 0; 0; 0; PrimFloat.nan; 0; 0; 0; 0]%float.

Definition without_fifth (y : F64.series) : F64.series :=
  firstn 4 y ++ skipn 5 y.

(** ** Classes of float64 values

    On the specification of binary64 ([spec_float]): a number with a
    given sign bit (not NaN), and a zero or finite number. *)

Definition has_sign (sx : bool) (r : spec_float) : bool :=
  match r with
  | S754_zero s | S754_infinity s | S754_finite s _ _ => Bool.eqb s sx
  | S754_nan => false
  end.

Definition is_number (r : spec_float) : bool :=
  match r with S754_nan => false | _ => true end.

Definition SFfinite (r : spec_float) : bool :=
  match r with S754_zero _ | S754_finite _ _ _ => true | _ => false end.

(** The same classes on float64 values: [nonneg x] says that [x] is [+0],
    a positive number or [+inf]; [number x] that [x] is not NaN. *)
Definition nonneg (x : float) : bool := has_sign false (Prim2SF x).
Definition number (x : float) : bool := is_number (Prim2SF x).

(** Every entry is a finite number (no NaN, no infinity). *)
Definition all_finite (y : F64.series) : bool := forallb PrimFloat.is_finite y.

(** ** The exact value of a float64 *)

(** The value of a zero or finite float64 in units of [2^-1074], the
    smallest positive float64: an integer. *)
Definition SFscaled (r : spec_float) : option Z :=
  match r with
  | S754_zero _ => Some 0%Z
  | S754_finite s m e => Some (cond_Zopp s (Zpos m) * 2 ^ (e + 1074))%Z
  | _ => None
  end.

Definition scaled (x : float) : option Z := SFscaled (Prim2SF x).

(** The float64 nearest to [v * 2^-1074]. *)
Definition round_scaled (v : Z) : spec_float :=
  binary_normalize prec emax v (-1074) false.

(** The mantissa [p] with no bit shifted out yet, and the square of a
    float64 on its specification. *)
Definition exact_record (p : positive) : shr_record :=
  {| shr_m := Zpos p; shr_r := false; shr_s := false |}.

Definition SFsquare (r : spec_float) : spec_float := SFmul prec emax r r.

(** The rational number that a zero or finite float64 stands for. *)
Definition exact (x : float) : option Q :=
  match scaled x with
  | Some v => Some (Qred (inject_Z v / inject_Z (2 ^ 1074))%Q)
  | None => None
  end.

(** ** Integer-valued arrays *)

(** The float64 of the integer [k] (exact below [2^53]), and the integer
    that a float64 holds, if it holds one. *)
Definition Zfloat (k : Z) : spec_float := binary_normalize prec emax k 0 false.

Definition integer_value (a : float) : option Z :=
  match scaled a with
  | Some v => if (v mod 2 ^ 1074 =? 0)%Z then Some (v / 2 ^ 1074)%Z else None
  | None => None
  end.

Fixpoint integer_values (y : F64.series) : option (list Z) :=
  match y with
  | [] => Some []
  | a :: y' =>
      match integer_value a, integer_values y' with
      | Some k, Some ks => Some (k :: ks)
      | _, _ => None
      end
  end.

(** The sum of a list of integers, and the squared differences of two
    lists of integers. *)
Definition Zsum (ks : list Z) : Z := fold_right Z.add 0%Z ks.

Definition sq_diffs (ks ks_ : list Z) : list Z :=
  zip_with (fun k k_ => (k - k_) * (k - k_))%Z ks ks_.

(** [x] is the float64 of the non-negative integer [k], as long as [k]
    is below [2^53]. *)
Definition holds_integer (x : float) (k : Z) : Prop :=
  (0 <= k)%Z /\ ((k < 2 ^ 53)%Z -> Prim2SF x = Zfloat k).

(** [a + c] is computed without rounding: both operands and the float64
    sum are finite and the sum holds the exact value. *)
Definition adds_exactly (a c : float) : bool :=
  match scaled a, scaled c, scaled (a + c) with
  | Some va, Some vc, Some v => Z.eqb v (va + vc)
  | _, _, _ => false
  end.

(** Every entry of [y + c] is computed without rounding. *)
Definition exact_shift (y : F64.series) (c : float) : bool :=
  forallb (fun a => adds_exactly a c) y.

(** The arithmetic mean of the squared differences of two arrays of finite
    float64 values, computed in rational arithmetic. *)
Fixpoint exact_sq_sum (y y_ : F64.series) : option Q :=
  match y, y_ with
  | a :: y', b :: y_' =>
      match exact a, exact b, exact_sq_sum y' y_' with
      | Some p, Some q, Some s => Some ((p - q) * (p - q) + s)%Q
      | _, _, _ => None
      end
  | _, _ => Some 0%Q
  end.

Definition exact_mean_sq (y y_ : F64.series) : option Q :=
  match exact_sq_sum y y_ with
  | Some s => Some (Qred (s / inject_Z (Z.of_nat (length y)))%Q)
  | None => None
  end.

(** * The exact reading

    A float64 read as an extended real, with exact arithmetic on finite
    values: no rounding, no overflow, no underflow.  Used only to compare
    two runs of cell 8 (exchanged arrays, a NaN position left out). *)

(** ** Scalars *)

Inductive num : Type :=
| Fin (r : R)
| PInf
| NInf
| NaN.

Definition is_nan (a : num) : bool :=
  match a with NaN => true | _ => false end.

Definition nadd (a b : num) : num :=
  match a, b with
  | Fin x, Fin y => Fin (x + y)
  | NaN, _ | _, NaN => NaN
  | PInf, NInf | NInf, PInf => NaN
  | PInf, _ | _, PInf => PInf
  | NInf, _ | _, NInf => NInf
  end.

Definition nneg (a : num) : num :=
  match a with
  | Fin x => Fin (- x)
  | PInf => NInf
  | NInf => PInf
  | NaN => NaN
  end.

Definition nsub (a b : num) : num :=
  match a, b with
  | Fin x, Fin y => Fin (x - y)
  | _, _ => nadd a (nneg b)
  end.

(** [x ** 2] on a float64. *)
Definition npow2 (a : num) : num :=
  match a with
  | Fin x => Fin (x * x)
  | PInf | NInf => PInf
  | NaN => NaN
  end.

(** [np.abs]. *)
Definition nabs (a : num) : num :=
  match a with
  | Fin x => Fin (Rabs x)
  | PInf | NInf => PInf
  | NaN => NaN
  end.

(** [np.sqrt]: NaN on a negative argument. *)
Definition nsqrt (a : num) : num :=
  match a with
  | Fin x => if Rlt_dec x 0 then NaN else Fin (sqrt x)
  | PInf => PInf
  | NInf | NaN => NaN
  end.

(** Division of float64 scalars.  The zero divisors of this program are a
    count of elements and a mean of squares, both [+0.0]. *)
Definition ndiv (a b : num) : num :=
  match a, b with
  | NaN, _ | _, NaN => NaN
  | Fin x, Fin y =>
      if Req_dec_T y 0 then
        if Rlt_dec 0 x then PInf
        else if Rlt_dec x 0 then NInf
        else NaN
      else Fin (x / y)
  | Fin _, (PInf | NInf) => Fin 0
  | (PInf | NInf), (PInf | NInf) => NaN
  | PInf, Fin y => if Rlt_dec y 0 then NInf else PInf
  | NInf, Fin y => if Rlt_dec y 0 then PInf else NInf
  end.

(** ** One-dimensional arrays *)

Definition series : Type := list num.

(** [y - y_], with the shapes treated as in [F64.series_sub]. *)
Definition series_sub (y y_ : series) : result series :=
  if Nat.eqb (length y) (length y_) then Ok (zip_with nsub y y_)
  else match y_ with
       | [b] => Ok (map (fun a => nsub a b) y)
       | _ => Raise ValueError
       end.

(** [d ** 2] and [abs(d)]. *)
Definition series_pow2 (d : series) : series := map npow2 d.
Definition series_abs (d : series) : series := map nabs d.

(** [Series.sum] as an accumulation loop. *)
Definition series_sum (d : series) : num := fold_left nadd d (Fin 0).

(** [Series.mean()], with the default [skipna=True]: NaN entries are left
    out of both the sum and the count, and the mean of no entry is NaN. *)
Definition series_mean (d : series) : num :=
  let kept := filter (fun a => negb (is_nan a)) d in
  let count := length kept in
  if Nat.ltb 0 count then ndiv (series_sum kept) (Fin (INR count))
  else NaN.

(** ** The metrics *)

(** Cell 8: [((y_train - y_train_) ** 2).mean()]. *)
Definition mse (y y_ : series) : result num :=
  d <- series_sub y y_ ;;
  Ok (series_mean (series_pow2 d)).

(** Cell 12: [np.sqrt(mse)]. *)
Definition rmse (y y_ : series) : result num :=
  m <- mse y y_ ;;
  Ok (nsqrt m).

(** Modelled from the spec: [mean_absolute_error], the arithmetic mean of
    [|y[i] - y_hat[i]|].  No cell of the notebook computes it: cell 2
    (markdown) gives the formula and scikit-learn's function is named but
    never called.  The formula is read with the array operations of
    cell 8, [abs] in place of [** 2]. *)
Definition mae (y y_ : series) : result num :=
  d <- series_sub y y_ ;;
  Ok (series_mean (series_abs d)).

(** A vector of real labels as an array of finite float64 values. *)
Definition vec (v : list R) : series := map Fin v.

(** Sample label vectors. *)
Definition labels : list R := [1; 2; 3].
Definition flat_guess : list R := [2; 2; 2].
(** * Float64 arithmetic *)

(** ** Rounding keeps the sign and never gives NaN *)

Section Rounding.

Lemma shr_1_nonneg (mrs : shr_record) :
  (0 <= shr_m mrs)%Z -> (0 <= shr_m (shr_1 mrs))%Z.
Proof.
  destruct mrs as [m r s]. simpl.
  destruct m as [|[p|p|]|[p|p|]]; simpl; lia.
Qed.

Lemma iter_pos_invariant {A : Type} (f : A -> A) (Q : A -> Prop) :
  (forall x, Q x -> Q (f x)) ->
  forall (p : positive) (x : A), Q x -> Q (SpecFloat.iter_pos f p x).
Proof.
  intros Step. induction p as [p IH|p IH|]; intros x Qx; simpl.
  - apply IH, IH, Step, Qx.
  - apply IH, IH, Qx.
  - apply Step, Qx.
Qed.

Lemma shr_fexp_nonneg (m e : Z) (l : location) :
  (0 <= m)%Z -> (0 <= shr_m (fst (shr_fexp prec emax m e l)))%Z.
Proof.
  intros Pm. unfold shr_fexp, shr.
  assert (P0 : (0 <= shr_m (shr_record_of_loc m l))%Z)
    by (destruct l as [|[ | | ]]; exact Pm).
  destruct (fexp prec emax (Zdigits2 m + e) - e)%Z as [|p|p]; simpl;
    try exact P0.
  apply (@iter_pos_invariant shr_record shr_1 (fun r => (0 <= shr_m r)%Z) shr_1_nonneg).
  exact P0.
Qed.

Lemma round_nearest_even_nonneg (m : Z) (l : location) :
  (0 <= m)%Z -> (0 <= round_nearest_even m l)%Z.
Proof.
  intros Pm. destruct l as [|[ | | ]]; simpl; try lia.
  destruct (Z.even m); lia.
Qed.

(** Rounding a non-negative mantissa gives a zero, a finite number or an
    infinity of the requested sign. *)
Lemma round_aux_has_sign (sx : bool) (m e : Z) (l : location) :
  (0 <= m)%Z -> has_sign sx (binary_round_aux prec emax sx m e l) = true.
Proof.
  intros Pm. unfold binary_round_aux.
  pose proof (shr_fexp_nonneg m e l Pm) as P1.
  destruct (shr_fexp prec emax m e l) as [mrs' e']. simpl in P1.
  pose proof (shr_fexp_nonneg
                (round_nearest_even (shr_m mrs') (loc_of_shr_record mrs'))
                e' loc_Exact
                (round_nearest_even_nonneg _ _ P1)) as P2.
  destruct (shr_fexp prec emax _ e' loc_Exact) as [mrs'' e'']. simpl in P2.
  destruct (shr_m mrs'') as [|p|p]; [| |lia].
  - simpl. apply Bool.eqb_reflx.
  - destruct (Z.leb e'' (Z.sub emax prec)); simpl; apply Bool.eqb_reflx.
Qed.

Lemma round_has_sign (sx : bool) (m : positive) (e : Z) :
  has_sign sx (binary_round prec emax sx m e) = true.
Proof.
  unfold binary_round. destruct (shl_align _ _ _) as [mz ez].
  apply round_aux_has_sign. lia.
Qed.

Lemma has_sign_number (sx : bool) (r : spec_float) :
  has_sign sx r = true -> is_number r = true.
Proof. destruct r; simpl; intros H; try reflexivity; discriminate. Qed.

Lemma normalize_number (m e : Z) (szero : bool) :
  is_number (binary_normalize prec emax m e szero) = true.
Proof.
  destruct m as [|p|p]; simpl; [reflexivity| |];
    eapply has_sign_number; apply round_has_sign.
Qed.

End Rounding.

(** ** The operations on numbers of known sign *)

Section Operations.

Lemma SFsub_finite_number (x y : spec_float) :
  SFfinite x = true -> SFfinite y = true ->
  is_number (SFsub prec emax x y) = true.
Proof.
  destruct x as [sx|sx| |sx mx ex]; try discriminate;
  destruct y as [sy|sy| |sy my ey]; try discriminate; intros _ _.
  - destruct sx, sy; reflexivity.
  - reflexivity.
  - reflexivity.
  - unfold SFsub. apply normalize_number.
Qed.

Lemma SFmul_square_nonneg (x : spec_float) :
  is_number x = true -> has_sign false (SFmul prec emax x x) = true.
Proof.
  destruct x as [s|s| |s m e]; try discriminate; intros _.
  - destruct s; reflexivity.
  - destruct s; reflexivity.
  - unfold SFmul. replace (xorb s s) with false by (destruct s; reflexivity).
    apply round_aux_has_sign. lia.
Qed.

Lemma SFadd_nonneg (x y : spec_float) :
  has_sign false x = true -> has_sign false y = true ->
  has_sign false (SFadd prec emax x y) = true.
Proof.
  destruct x as [[|]|[|]| |[|] mx ex]; try discriminate;
  destruct y as [[|]|[|]| |[|] my ey]; try discriminate; intros _ _;
    try reflexivity.
  unfold SFadd. cbn [cond_Zopp].
  change (Z.add (Zpos ?a) (Zpos ?b)) with (Zpos (a + b)).
  cbn [binary_normalize]. apply round_has_sign.
Qed.

Lemma SFdiv_nonneg (x : spec_float) (my : positive) (ey : Z) :
  has_sign false x = true ->
  has_sign false (SFdiv prec emax x (S754_finite false my ey)) = true.
Proof.
  destruct x as [[|]|[|]| |[|] mx ex]; try discriminate; intros _;
    try reflexivity.
  unfold SFdiv, SFdiv_core_binary.
  set (s := (ex - ey - _)%Z).
  set (m' := match s with Zpos _ => Z.shiftl (Zpos mx) s | Z0 => Zpos mx
                          | Zneg _ => 0%Z end).
  assert (Pm : (0 <= m')%Z).
  { unfold m'. destruct s as [|p|p]; try lia.
    apply Z.shiftl_nonneg. lia. }
  assert (Pq : (0 <= fst (Z.div_eucl m' (Zpos my)))%Z).
  { change (fst (Z.div_eucl m' (Zpos my))) with (Z.div m' (Zpos my)).
    apply Z.div_pos; lia. }
  destruct (Z.div_eucl m' (Zpos my)) as [q r]. simpl in Pq.
  apply round_aux_has_sign, Pq.
Qed.

Lemma SFsqrt_nonneg (x : spec_float) :
  has_sign false x = true -> has_sign false (SFsqrt prec emax x) = true.
Proof.
  destruct x as [[|]|[|]| |[|] mx ex]; try discriminate; intros _;
    try reflexivity.
  unfold SFsqrt, SFsqrt_core_binary.
  set (s := (ex - 2 * _)%Z).
  set (m' := match s with Zpos _ => Z.shiftl (Zpos mx) s | Z0 => Zpos mx
                          | Zneg _ => 0%Z end).
  pose proof (Z.sqrtrem_sqrt m') as Q. pose proof (Z.sqrt_nonneg m') as Pq.
  destruct (Z.sqrtrem m') as [q r]. simpl in Q. subst q.
  apply round_aux_has_sign, Pq.
Qed.

End Operations.

(** ** Primitive float64 values *)

Section Primitive.

Lemma nonneg_zero : nonneg 0 = true.
Proof. reflexivity. Qed.

Lemma nonneg_add (a b : float) :
  nonneg a = true -> nonneg b = true -> nonneg (a + b) = true.
Proof.
  unfold nonneg. rewrite FloatAxioms.add_spec. apply SFadd_nonneg.
Qed.

Lemma nonneg_square (d : float) : number d = true -> nonneg (d * d) = true.
Proof.
  unfold nonneg, number. rewrite FloatAxioms.mul_spec.
  apply SFmul_square_nonneg.
Qed.

Lemma nonneg_sqrt (x : float) :
  nonneg x = true -> nonneg (PrimFloat.sqrt x) = true.
Proof.
  unfold nonneg. rewrite FloatAxioms.sqrt_spec. apply SFsqrt_nonneg.
Qed.

Lemma is_finite_SFfinite (a : float) :
  PrimFloat.is_finite a = true -> SFfinite (Prim2SF a) = true.
Proof.
  unfold PrimFloat.is_finite, PrimFloat.is_nan, PrimFloat.is_infinity.
  rewrite !FloatAxioms.eqb_spec, FloatAxioms.abs_spec.
  change (Prim2SF infinity) with (S754_infinity false).
  destruct (Prim2SF a) as [s|s| |s m e]; try reflexivity.
  - destruct s; discriminate.
  - discriminate.
Qed.

Lemma number_sub (a b : float) :
  PrimFloat.is_finite a = true -> PrimFloat.is_finite b = true ->
  number (a - b) = true.
Proof.
  intros Fa Fb. unfold number. rewrite FloatAxioms.sub_spec.
  apply SFsub_finite_number; apply is_finite_SFfinite; assumption.
Qed.

Lemma SFcompare_refl_finite (s : bool) (m : positive) (e : Z) :
  SFcompare (S754_finite s m e) (S754_finite s m e) = Some Eq.
Proof.
  simpl. rewrite Z.compare_refl, Pos.compare_cont_refl.
  destruct s; reflexivity.
Qed.

Lemma nonneg_not_nan (x : float) : nonneg x = true -> PrimFloat.is_nan x = false.
Proof.
  unfold nonneg, PrimFloat.is_nan. rewrite FloatAxioms.eqb_spec.
  unfold SFeqb.
  destruct (Prim2SF x) as [[|]|[|]| |[|] m e]; try discriminate; intros _;
    try reflexivity.
  rewrite SFcompare_refl_finite. reflexivity.
Qed.

Lemma nonneg_leb (x : float) : nonneg x = true -> (0 <=? x)%float = true.
Proof.
  unfold nonneg. rewrite FloatAxioms.leb_spec.
  change (Prim2SF 0) with (S754_zero false).
  destruct (Prim2SF x) as [[|]|[|]| |[|] m e]; try discriminate; intros _;
    reflexivity.
Qed.

(** Adding [+0] on the left changes no non-negative value. *)
Lemma zero_add_nonneg (s : float) : nonneg s = true -> (0 + s)%float = s.
Proof.
  unfold nonneg. intros H. apply FloatAxioms.Prim2SF_inj.
  rewrite FloatAxioms.add_spec. change (Prim2SF 0) with (S754_zero false).
  destruct (Prim2SF s) as [[|]|[|]| |[|] m e]; try discriminate; reflexivity.
Qed.

End Primitive.

(** ** Equal operands, and the count as a float64 *)

Section Counts.

Lemma SFsub_equal_zero (x y : spec_float) :
  SFfinite x = true -> SFeqb x y = true ->
  exists s, SFsub prec emax x y = S754_zero s.
Proof.
  unfold SFeqb.
  destruct x as [sx|sx| |sx mx ex]; try discriminate;
  destruct y as [sy|sy| |sy my ey]; intros _ C;
    try (destruct sx; discriminate C); try (destruct sy; discriminate C);
    try discriminate C.
  - destruct sx, sy; eexists; reflexivity.
  - assert (E : sx = sy /\ ex = ey /\ mx = my).
    { simpl in C. destruct sx, sy; try discriminate;
        destruct (Z.compare_spec ex ey) as [E|L|G]; try discriminate;
        (split; [reflexivity | split; [exact E|]]);
        rewrite Pos.compare_cont_spec in C; simpl in C;
        destruct (Pos.compare_spec mx my) as [M|M|M]; try discriminate;
        exact M. }
    destruct E as [-> [-> ->]].
    exists false. unfold SFsub. rewrite Z.sub_diag. reflexivity.
Qed.

Lemma SFmul_zero_square (s : bool) :
  SFmul prec emax (S754_zero s) (S754_zero s) = S754_zero false.
Proof. destruct s; reflexivity. Qed.

(** The square of the difference of two equal finite values is [+0]. *)
Lemma square_of_equal (a b : float) :
  PrimFloat.is_finite a = true -> (a =? b)%float = true ->
  ((a - b) * (a - b))%float = 0%float.
Proof.
  intros Fa E. apply FloatAxioms.Prim2SF_inj.
  rewrite FloatAxioms.mul_spec, FloatAxioms.sub_spec.
  rewrite FloatAxioms.eqb_spec in E. unfold SF64mul, SF64sub.
  destruct (SFsub_equal_zero _ _ (is_finite_SFfinite a Fa) E) as [s ->].
  rewrite SFmul_zero_square. reflexivity.
Qed.

Lemma digits2_iter_xO (p s : positive) :
  digits2_pos (Pos.iter xO p s) = (digits2_pos p + s)%positive.
Proof.
  induction s as [|s IH] using Pos.peano_ind.
  - simpl. rewrite Pos.add_1_r. reflexivity.
  - rewrite Pos.iter_succ. simpl. rewrite IH, Pos.add_succ_r. reflexivity.
Qed.

Lemma digits2_lower (p : positive) :
  (2 ^ (Zpos (digits2_pos p) - 1) <= Zpos p)%Z.
Proof.
  induction p as [p IH|p IH|]; simpl digits2_pos.
  - rewrite Pos2Z.inj_succ.
    replace (Z.succ (Zpos (digits2_pos p)) - 1)%Z
      with (Z.succ (Zpos (digits2_pos p) - 1)) by lia.
    rewrite Z.pow_succ_r by lia. lia.
  - rewrite Pos2Z.inj_succ.
    replace (Z.succ (Zpos (digits2_pos p)) - 1)%Z
      with (Z.succ (Zpos (digits2_pos p) - 1)) by lia.
    rewrite Z.pow_succ_r by lia. lia.
  - simpl. lia.
Qed.

Lemma digits2_small (p : positive) :
  (Zpos p < 2 ^ 53)%Z -> (Zpos (digits2_pos p) <= 53)%Z.
Proof.
  intros B. pose proof (digits2_lower p) as L.
  destruct (Z_le_gt_dec (Zpos (digits2_pos p)) 53) as [H|H]; [exact H|].
  assert (2 ^ 53 <= 2 ^ (Zpos (digits2_pos p) - 1))%Z
    by (apply Z.pow_le_mono_r; lia).
  lia.
Qed.

(** A mantissa of exactly 53 bits with an exponent in range is not
    rounded. *)
Lemma round_aux_exact (mz : positive) (ez : Z) :
  Zpos (digits2_pos mz) = 53%Z -> (-1074 <= ez <= 971)%Z ->
  binary_round_aux prec emax false (Zpos mz) ez loc_Exact
  = S754_finite false mz ez.
Proof.
  intros D B.
  assert (F : fexp prec emax (Zdigits2 (Zpos mz) + ez) = ez).
  { unfold fexp, SpecFloat.emin, prec, emax. simpl Zdigits2. rewrite D. lia. }
  unfold binary_round_aux, shr_fexp. rewrite F, Z.sub_diag.
  cbn [shr shr_record_of_loc shr_m loc_of_shr_record round_nearest_even].
  rewrite F, Z.sub_diag. cbn [shr shr_record_of_loc shr_m].
  replace (Z.leb ez (Z.sub emax prec)) with true; [reflexivity|].
  symmetry. apply Z.leb_le. unfold emax, prec. lia.
Qed.

Lemma normalize_small_positive (p : positive) :
  (Zpos p < 2 ^ 53)%Z ->
  exists m e, binary_normalize prec emax (Zpos p) 0 false
              = S754_finite false m e.
Proof.
  intros B. pose proof (digits2_small p B) as D.
  unfold binary_normalize, binary_round.
  assert (F : fexp prec emax (Zpos (digits2_pos p) + 0)
              = (Zpos (digits2_pos p) - 53)%Z).
  { unfold fexp, SpecFloat.emin, prec, emax. lia. }
  rewrite F. unfold shl_align.
  destruct (Zpos (digits2_pos p) - 53 - 0)%Z as [|s|s] eqn:S; try lia.
  - exists p, 0%Z. apply round_aux_exact; lia.
  - exists (Pos.iter xO p s), (Zpos (digits2_pos p) - 53)%Z.
    apply round_aux_exact.
    + rewrite digits2_iter_xO. lia.
    + lia.
Qed.

(** A count between 1 and 2^53 - 1 is a positive finite float64. *)
Lemma of_nat_positive (n : nat) :
  (0 < n)%nat -> (Z.of_nat n < 2 ^ 53)%Z ->
  exists m e, Prim2SF (F64.of_nat n) = S754_finite false m e.
Proof.
  intros Pn Bn. unfold F64.of_nat, F64.of_Z.
  rewrite FloatAxioms.of_uint63_spec.
  rewrite Uint63.of_Z_spec.
  rewrite Z.mod_small
    by (split; [lia | change Uint63.wB with (2 ^ 63)%Z; lia]).
  destruct (Z.of_nat n) as [|p|p] eqn:E; try lia.
  apply normalize_small_positive. exact Bn.
Qed.

Lemma nonneg_div_count (s : float) (n : nat) :
  (0 < n)%nat -> (Z.of_nat n < 2 ^ 53)%Z ->
  nonneg s = true -> nonneg (s / F64.of_nat n) = true.
Proof.
  intros Pn Bn. unfold nonneg. rewrite FloatAxioms.div_spec.
  destruct (of_nat_positive n Pn Bn) as [m [e ->]]. apply SFdiv_nonneg.
Qed.

Lemma zero_div_count (n : nat) :
  (0 < n)%nat -> (Z.of_nat n < 2 ^ 53)%Z ->
  (0 / F64.of_nat n)%float = 0%float.
Proof.
  intros Pn Bn. apply FloatAxioms.Prim2SF_inj. rewrite FloatAxioms.div_spec.
  destruct (of_nat_positive n Pn Bn) as [m [e ->]]. reflexivity.
Qed.

End Counts.

(** ** The depth of the splitting *)

Section Fuel.

Context {A : Type}.
Variable add : A -> A -> A.
Variable zero : A.

(** The length of the array is fuel enough: more fuel changes nothing. *)
Lemma pairwise_sum_fuel (f1 f2 : nat) (a : list A) :
  (length a <= f1)%nat -> (length a <= f2)%nat ->
  pairwise_sum add zero f1 a = pairwise_sum add zero f2 a.
Proof.
  revert f2 a; induction f1 as [|f1 IH]; intros f2 a L1 L2.
  - destruct a; [|simpl in L1; lia]. destruct f2; reflexivity.
  - destruct f2 as [|f2]; [destruct a; [reflexivity | simpl in L2; lia]|].
    cbn [pairwise_sum]. destruct (length a <? 8)%nat; [reflexivity|].
    destruct (length a <=? 128)%nat eqn:Big; [reflexivity|].
    apply Nat.leb_gt in Big.
    pose proof (Nat.div_mod_eq (length a) 2) as H2.
    assert (U2 : (length a mod 2 < 2)%nat)
      by (apply Nat.mod_upper_bound; lia).
    assert (U8 : ((length a / 2) mod 8 < 8)%nat)
      by (apply Nat.mod_upper_bound; lia).
    f_equal; apply IH; rewrite ?length_firstn, ?length_skipn; lia.
Qed.

End Fuel.

(** ** numpy's sum and relations kept by the addition *)

Section Related.

Context {A B : Type}.
Variable addA : A -> A -> A.
Variable zeroA : A.
Variable addB : B -> B -> B.
Variable zeroB : B.
Variable R : A -> B -> Prop.
Hypothesis R_zero : R zeroA zeroB.
Hypothesis R_add :
  forall a b a' b', R a b -> R a' b' -> R (addA a a') (addB b b').

Lemma loop_sum_related (a : list A) (b : list B) (ra : A) (rb : B) :
  Forall2 R a b -> R ra rb -> R (loop_sum addA a ra) (loop_sum addB b rb).
Proof.
  unfold loop_sum. intros F. revert ra rb.
  induction F as [|x y a b Rxy _ IH]; intros ra rb Rr; simpl; [exact Rr|].
  apply IH, R_add; assumption.
Qed.

Lemma Forall2_firstn' (k : nat) (a : list A) (b : list B) :
  Forall2 R a b -> Forall2 R (firstn k a) (firstn k b).
Proof.
  intros F. revert k.
  induction F as [|x y a b Rxy _ IH]; intros [|k]; simpl; constructor;
    [exact Rxy | apply IH].
Qed.

Lemma Forall2_skipn' (k : nat) (a : list A) (b : list B) :
  Forall2 R a b -> Forall2 R (skipn k a) (skipn k b).
Proof.
  intros F. revert k.
  induction F as [|x y a b Rxy F IH]; intros [|k]; simpl;
    [constructor | constructor | constructor; assumption | apply IH].
Qed.

Lemma zip_add_related (u v : list A) (u' v' : list B) :
  Forall2 R u u' -> Forall2 R v v' ->
  Forall2 R (zip_with addA u v) (zip_with addB u' v').
Proof.
  intros Fu. revert v v'.
  induction Fu as [|x y u u' Rxy _ IH]; intros v v' Fv; simpl;
    [constructor|].
  destruct Fv as [|p q v v' Rpq Fv]; constructor.
  - apply R_add; assumption.
  - apply IH, Fv.
Qed.

Lemma combine8_related (r : list A) (r' : list B) :
  Forall2 R r r' -> R (combine8 addA zeroA r) (combine8 addB zeroB r').
Proof.
  intros F. unfold combine8.
  repeat (destruct F as [|? ? r r' ? F]; [exact R_zero|]).
  destruct F; [|exact R_zero].
  repeat apply R_add; assumption.
Qed.

Lemma add_blocks_related (k : nat) (r a : list A) (r' a' : list B) :
  Forall2 R r r' -> Forall2 R a a' ->
  Forall2 R (fst (add_blocks addA k r a)) (fst (add_blocks addB k r' a'))
  /\ Forall2 R (snd (add_blocks addA k r a)) (snd (add_blocks addB k r' a')).
Proof.
  revert r a r' a'; induction k as [|k IH]; intros r a r' a' Fr Fa.
  - split; assumption.
  - change (add_blocks addA (S k) r a)
      with (add_blocks addA k (zip_with addA r (firstn 8 a)) (skipn 8 a)).
    change (add_blocks addB (S k) r' a')
      with (add_blocks addB k (zip_with addB r' (firstn 8 a')) (skipn 8 a')).
    apply IH.
    + apply zip_add_related; [assumption | apply Forall2_firstn', Fa].
    + apply Forall2_skipn', Fa.
Qed.

Lemma block_sum_related (a : list A) (a' : list B) :
  Forall2 R a a' -> R (block_sum addA zeroA a) (block_sum addB zeroB a').
Proof.
  intros F. unfold block_sum. rewrite <- (Forall2_length F).
  pose proof (add_blocks_related (length a / 8 - 1)
                (firstn 8 a) (skipn 8 a) (firstn 8 a') (skipn 8 a')
                (Forall2_firstn' 8 a a' F) (Forall2_skipn' 8 a a' F))
    as [Fr Frest].
  destruct (add_blocks addA _ _ _) as [r rest].
  destruct (add_blocks addB _ _ _) as [r' rest']. simpl in Fr, Frest.
  apply loop_sum_related; [exact Frest | apply combine8_related, Fr].
Qed.

Lemma pairwise_sum_related (fuel : nat) (a : list A) (a' : list B) :
  Forall2 R a a' ->
  R (pairwise_sum addA zeroA fuel a) (pairwise_sum addB zeroB fuel a').
Proof.
  revert a a'; induction fuel as [|fuel IH]; intros a a' F; simpl;
    rewrite <- (Forall2_length F).
  - destruct (length a <? 8)%nat; [apply loop_sum_related; assumption|].
    destruct (length a <=? 128)%nat; apply block_sum_related, F.
  - destruct (length a <? 8)%nat; [apply loop_sum_related; assumption|].
    destruct (length a <=? 128)%nat; [apply block_sum_related, F|].
    apply R_add; apply IH;
      [apply Forall2_firstn' | apply Forall2_skipn']; exact F.
Qed.

End Related.

(** ** numpy's sum keeps what [+] keeps *)

Section Closed.

Variable P : float -> Prop.
Hypothesis P_zero : P 0%float.
Hypothesis P_add : forall a b, P a -> P b -> P (a + b)%float.

Lemma Forall_diagonal (a : F64.series) :
  Forall P a -> Forall2 (fun x _ => P x) a a.
Proof. induction 1; constructor; assumption. Qed.

Lemma loop_sum_closed (a : F64.series) (res : float) :
  Forall P a -> P res -> P (loop_sum PrimFloat.add a res).
Proof.
  intros F Pr.
  apply (loop_sum_related PrimFloat.add PrimFloat.add (fun x _ => P x)
           (fun a b a' b' Pa Pa' => P_add a a' Pa Pa') a a res res
           (Forall_diagonal a F) Pr).
Qed.

Lemma pairwise_sum_closed (fuel : nat) (a : F64.series) :
  Forall P a -> P (pairwise_sum PrimFloat.add 0%float fuel a).
Proof.
  intros F.
  apply (pairwise_sum_related PrimFloat.add 0%float PrimFloat.add 0%float
           (fun x _ => P x) P_zero
           (fun a b a' b' Pa Pa' => P_add a a' Pa Pa') fuel a a
           (Forall_diagonal a F)).
Qed.

Lemma np_sum_closed (a : F64.series) : Forall P a -> P (F64.np_sum a).
Proof.
  intros F. unfold F64.np_sum. apply P_add; [exact P_zero|].
  apply pairwise_sum_closed, F.
Qed.

End Closed.

(** ** The mean of an array without NaN *)

Section Means.

Lemma fill_without_nan (d : F64.series) :
  Forall (fun a => PrimFloat.is_nan a = false) d ->
  map (fun a => if PrimFloat.is_nan a then 0%float else a) d = d
  /\ length (filter (fun a => negb (PrimFloat.is_nan a)) d) = length d.
Proof.
  induction 1 as [|a d Ha _ [IH1 IH2]]; simpl; [split; reflexivity|].
  rewrite Ha. simpl. rewrite IH1, IH2. split; reflexivity.
Qed.

Lemma series_mean_without_nan (d : F64.series) :
  Forall (fun a => PrimFloat.is_nan a = false) d -> d <> [] ->
  F64.series_mean d = (F64.np_sum d / F64.of_nat (length d))%float.
Proof.
  intros F Ne. unfold F64.series_mean.
  destruct (fill_without_nan d F) as [-> ->].
  destruct d as [|a d]; [contradiction Ne; reflexivity|]. reflexivity.
Qed.

Lemma pairwise_sum_short (fuel : nat) (a : F64.series) :
  (length a < 8)%nat -> pairwise_sum PrimFloat.add 0%float fuel a
  = loop_sum PrimFloat.add a 0%float.
Proof.
  intros L. apply Nat.ltb_lt in L. destruct fuel; simpl; rewrite L; reflexivity.
Qed.

Lemma loop_sum_upto (f : nat -> float) (n : nat) :
  loop_sum PrimFloat.add (map f (seq 0 n)) 0%float = F64.sum_upto n f.
Proof.
  unfold loop_sum. induction n as [|n IH]; [reflexivity|].
  rewrite seq_S, map_app, fold_left_app, IH. reflexivity.
Qed.

(** The squared residuals, position by position. *)
Lemma squares_by_position (y y_ : F64.series) :
  length y = length y_ ->
  F64.series_pow2 (zip_with PrimFloat.sub y y_)
  = map (F64.sq_diff y y_) (seq 0 (length y)).
Proof.
  revert y_; induction y as [|a y IH]; intros [|b y_] L; try discriminate;
    [reflexivity|].
  simpl in L. injection L as L.
  change (length (a :: y)) with (S (length y)).
  rewrite <- cons_seq, <- seq_shift.
  unfold F64.series_pow2 in *. cbn [zip_with map]. rewrite map_map.
  f_equal. rewrite (IH y_ L). reflexivity.
Qed.

Lemma squares_nonneg (y y_ : F64.series) :
  all_finite y = true -> all_finite y_ = true ->
  Forall (fun d => nonneg d = true)
         (F64.series_pow2 (zip_with PrimFloat.sub y y_)).
Proof.
  unfold all_finite.
  revert y_; induction y as [|a y IH]; intros [|b y_] Fy Fy_; simpl;
    try constructor.
  - simpl in Fy, Fy_. apply andb_prop in Fy, Fy_.
    apply nonneg_square, number_sub; [apply Fy | apply Fy_].
  - simpl in Fy, Fy_. apply andb_prop in Fy, Fy_.
    apply IH; [apply Fy | apply Fy_].
Qed.

Lemma zip_with_empty {A B C : Type} (f : A -> B -> C)
    (u : list A) (v : list B) :
  length u = length v -> u <> [] -> zip_with f u v <> [].
Proof.
  destruct u as [|a u], v as [|b v]; simpl; intros L Ne; try discriminate.
  contradiction Ne; reflexivity.
Qed.

Lemma zip_with_length {A B C : Type} (f : A -> B -> C)
    (u : list A) (v : list B) :
  length u = length v -> length (zip_with f u v) = length u.
Proof.
  revert v; induction u as [|a u IH]; intros [|b v] L; simpl in *;
    try discriminate; [reflexivity|].
  injection L as L. rewrite (IH v L). reflexivity.
Qed.

Lemma nonneg_without_nan (d : F64.series) :
  Forall (fun a => nonneg a = true) d ->
  Forall (fun a => PrimFloat.is_nan a = false) d.
Proof.
  intros F. eapply Forall_impl; [|exact F]. intros a. apply nonneg_not_nan.
Qed.

(** The mean of non-negative values is non-negative. *)
Lemma series_mean_nonneg (d : F64.series) :
  Forall (fun a => nonneg a = true) d -> d <> [] ->
  (Z.of_nat (length d) < 2 ^ 53)%Z ->
  nonneg (F64.series_mean d) = true.
Proof.
  intros F Ne B.
  rewrite (series_mean_without_nan d (nonneg_without_nan d F) Ne).
  apply nonneg_div_count; [destruct d; [contradiction Ne; reflexivity|simpl; lia] | exact B |].
  apply (np_sum_closed (fun x => nonneg x = true) nonneg_zero nonneg_add).
  exact F.
Qed.

(** The mean of an array of zeros is zero. *)
Lemma series_mean_zeros (d : F64.series) :
  Forall (fun a => a = 0%float) d -> d <> [] ->
  (Z.of_nat (length d) < 2 ^ 53)%Z ->
  F64.series_mean d = 0%float.
Proof.
  intros F Ne B.
  assert (N : Forall (fun a => PrimFloat.is_nan a = false) d).
  { eapply Forall_impl; [|exact F]. intros a ->. reflexivity. }
  rewrite (series_mean_without_nan d N Ne).
  rewrite (np_sum_closed (fun x => x = 0%float) eq_refl) with (a := d).
  - apply zero_div_count; [|exact B].
    destruct d; [contradiction Ne; reflexivity | simpl; lia].
  - intros a b -> ->. reflexivity.
  - exact F.
Qed.

End Means.

(** ** Exact values: what a float64 difference depends on *)

Section ExactValues.

Lemma iter_pos_nat {A : Type} (f : A -> A) (p : positive) (x : A) :
  SpecFloat.iter_pos f p x = Nat.iter (Pos.to_nat p) f x.
Proof.
  revert x. induction p as [p IH|p IH|]; intros x; simpl SpecFloat.iter_pos.
  - rewrite !IH. rewrite <- Nat.iter_succ_r, <- Nat.iter_add.
    f_equal. rewrite Pos2Nat.inj_xI. lia.
  - rewrite !IH. rewrite <- Nat.iter_add.
    f_equal. rewrite Pos2Nat.inj_xO. lia.
  - reflexivity.
Qed.

Lemma shr_nat (mrs : shr_record) (e n : Z) :
  (0 <= n)%Z -> shr mrs e n = (Nat.iter (Z.to_nat n) shr_1 mrs, (e + n)%Z).
Proof.
  intros Pn. destruct n as [|p|p]; [| |lia]; simpl.
  - rewrite Z.add_0_r. reflexivity.
  - rewrite iter_pos_nat. reflexivity.
Qed.

Lemma shr_exact_bits (j : nat) (p : positive) :
  Nat.iter j shr_1 (exact_record (Nat.iter j xO p)) = exact_record p.
Proof.
  induction j as [|j IH]; [reflexivity|].
  rewrite Nat.iter_succ_r. simpl. exact IH.
Qed.

Lemma digits2_shifted (j : nat) (p : positive) :
  Zpos (digits2_pos (Nat.iter j xO p))
  = (Zpos (digits2_pos p) + Z.of_nat j)%Z.
Proof.
  induction j as [|j IH]; [simpl; lia|].
  simpl Nat.iter. simpl digits2_pos. rewrite Pos2Z.inj_succ, IH. lia.
Qed.

Lemma Zpos_shifted (j : nat) (p : positive) :
  Zpos (Nat.iter j xO p) = (Zpos p * 2 ^ Z.of_nat j)%Z.
Proof.
  induction j as [|j IH]; [simpl; lia|].
  simpl Nat.iter. rewrite Pos2Z.inj_xO, IH, Nat2Z.inj_succ, Z.pow_succ_r by lia.
  lia.
Qed.

(** The state of the rounding of [p * 2^e] after alignment and the first
    shift. *)
Lemma round_state (p : positive) (e : Z) :
  let e' := fexp prec emax (Zpos (digits2_pos p) + e) in
  shr_fexp prec emax (Zpos (fst (shl_align p e e'))) (snd (shl_align p e e'))
           loc_Exact
  = (Nat.iter (Z.to_nat (e' - e)) shr_1
       (exact_record (Nat.iter (Z.to_nat (e - e')) xO p)), e').
Proof.
  intros e'. unfold shl_align.
  destruct (e' - e)%Z as [|n|d] eqn:D.
  - assert (E : e' = e) by lia. simpl fst. simpl snd.
    unfold shr_fexp. simpl Zdigits2. fold e'. rewrite D.
    replace (e - e')%Z with 0%Z by lia. simpl. rewrite E. reflexivity.
  - simpl fst. simpl snd. unfold shr_fexp. simpl Zdigits2. fold e'. rewrite D.
    rewrite shr_nat by lia.
    replace (Z.to_nat (e - e')) with O by lia.
    simpl Nat.iter at 2. f_equal. lia.
  - simpl fst. simpl snd.
    assert (X : Pos.iter xO p d = Nat.iter (Z.to_nat (e - e')) xO p).
    { rewrite Pos2Nat.inj_iter. replace (e - e')%Z with (Zpos d) by lia.
      reflexivity. }
    rewrite X. unfold shr_fexp. simpl Zdigits2.
    rewrite digits2_shifted.
    replace (Zpos (digits2_pos p) + Z.of_nat (Z.to_nat (e - e')) + e')%Z
      with (Zpos (digits2_pos p) + e)%Z by lia.
    fold e'. rewrite Z.sub_diag. reflexivity.
Qed.

Lemma binary_round_state (sx : bool) (p : positive) (e : Z) :
  binary_round prec emax sx p e
  = binary_round_aux prec emax sx
      (Zpos (fst (shl_align p e (fexp prec emax (Zpos (digits2_pos p) + e)))))
      (snd (shl_align p e (fexp prec emax (Zpos (digits2_pos p) + e))))
      loc_Exact.
Proof.
  unfold binary_round. destruct (shl_align _ _ _) as [mz ez]. reflexivity.
Qed.

(** Rounding [p * 2^j] at exponent [e - j] is rounding [p] at exponent
    [e]. *)
Lemma binary_round_rescale (sx : bool) (p : positive) (e : Z) (j : nat) :
  binary_round prec emax sx (Nat.iter j xO p) (e - Z.of_nat j)
  = binary_round prec emax sx p e.
Proof.
  rewrite !binary_round_state. unfold binary_round_aux.
  rewrite !round_state. rewrite digits2_shifted.
  replace (Zpos (digits2_pos p) + Z.of_nat j + (e - Z.of_nat j))%Z
    with (Zpos (digits2_pos p) + e)%Z by lia.
  set (e' := fexp prec emax (Zpos (digits2_pos p) + e)).
  assert (S : Nat.iter (Z.to_nat (e' - (e - Z.of_nat j))) shr_1
                (exact_record
                   (Nat.iter (Z.to_nat (e - Z.of_nat j - e')) xO
                      (Nat.iter j xO p)))
              = Nat.iter (Z.to_nat (e' - e)) shr_1
                  (exact_record (Nat.iter (Z.to_nat (e - e')) xO p))).
  { destruct (Z_le_gt_dec e e') as [Le|Gt].
    - replace (Z.to_nat (e - Z.of_nat j - e')) with O by lia.
      replace (Z.to_nat (e - e')) with O by lia.
      replace (Z.to_nat (e' - (e - Z.of_nat j)))
        with (Z.to_nat (e' - e) + j)%nat by lia.
      rewrite Nat.iter_add. simpl Nat.iter at 3 5.
      rewrite shr_exact_bits. reflexivity.
    - replace (Z.to_nat (e' - e)) with O by lia.
      destruct (Z_le_gt_dec e' (e - Z.of_nat j)) as [Le|Gt'].
      + replace (Z.to_nat (e' - (e - Z.of_nat j))) with O by lia.
        rewrite <- Nat.iter_add.
        replace (Z.to_nat (e - Z.of_nat j - e') + j)%nat
          with (Z.to_nat (e - e')) by lia.
        reflexivity.
      + replace (Z.to_nat (e - Z.of_nat j - e')) with O by lia.
        cbn [Nat.iter nat_rect].
        replace (Nat.iter j xO p)
          with (Nat.iter (Z.to_nat (e' - (e - Z.of_nat j))) xO
                  (Nat.iter (Z.to_nat (e - e')) xO p))
          by (rewrite <- Nat.iter_add; f_equal; lia).
        rewrite shr_exact_bits. reflexivity. }
  rewrite S. reflexivity.
Qed.

Lemma normalize_rescale (K e : Z) (j : nat) :
  binary_normalize prec emax (K * 2 ^ Z.of_nat j) (e - Z.of_nat j) false
  = binary_normalize prec emax K e false.
Proof.
  destruct K as [|p|p].
  - reflexivity.
  - rewrite <- Zpos_shifted. simpl. apply binary_round_rescale.
  - change (Zneg p) with (- Zpos p)%Z.
    rewrite Z.mul_opp_l, <- Zpos_shifted. simpl. apply binary_round_rescale.
Qed.

Lemma bounded_canonical (m : positive) (e : Z) :
  SpecFloat.bounded prec emax m e = true ->
  fexp prec emax (Zpos (digits2_pos m) + e) = e
  /\ (-1074 <= e <= 971)%Z.
Proof.
  unfold SpecFloat.bounded, canonical_mantissa. intros H.
  apply andb_prop in H. destruct H as [C B].
  apply Z.eqb_eq in C. apply Z.leb_le in B.
  split; [exact C|]. split.
  - rewrite <- C. unfold fexp, SpecFloat.emin, emax, prec. lia.
  - unfold emax, prec in B. lia.
Qed.

(** A canonical mantissa and exponent are not rounded. *)
Lemma round_canonical (s : bool) (m : positive) (e : Z) :
  SpecFloat.bounded prec emax m e = true ->
  binary_round prec emax s m e = S754_finite s m e.
Proof.
  intros H. destruct (bounded_canonical m e H) as [F B].
  rewrite binary_round_state, F. unfold shl_align. rewrite Z.sub_diag.
  simpl fst. simpl snd.
  unfold binary_round_aux, shr_fexp. simpl Zdigits2. rewrite F, Z.sub_diag.
  cbn [shr shr_record_of_loc shr_m loc_of_shr_record round_nearest_even].
  simpl Zdigits2. rewrite F, Z.sub_diag. cbn [shr shr_record_of_loc shr_m].
  replace (Z.leb e (Z.sub emax prec)) with true; [reflexivity|].
  symmetry. apply Z.leb_le. unfold emax, prec. lia.
Qed.

Lemma cond_Zopp_mul (s : bool) (a b : Z) :
  (cond_Zopp s a * b = cond_Zopp s (a * b))%Z.
Proof. destruct s; unfold cond_Zopp; ring. Qed.

Lemma round_scaled_rescale (K ez : Z) :
  (-1074 <= ez)%Z ->
  round_scaled (K * 2 ^ (ez + 1074)) = binary_normalize prec emax K ez false.
Proof.
  intros B. unfold round_scaled.
  pose proof (normalize_rescale K ez (Z.to_nat (ez + 1074))) as N.
  rewrite Z2Nat.id in N by lia.
  replace (ez - (ez + 1074))%Z with (-1074)%Z in N by lia. exact N.
Qed.

(** The float64 of a value that a float64 holds is that float64. *)
Lemma round_scaled_canonical (s : bool) (m : positive) (e : Z) :
  SpecFloat.bounded prec emax m e = true ->
  round_scaled (cond_Zopp s (Zpos m) * 2 ^ (e + 1074))
  = S754_finite s m e.
Proof.
  intros H. destruct (bounded_canonical m e H) as [_ B].
  rewrite round_scaled_rescale by lia.
  destruct s; simpl; apply round_canonical, H.
Qed.

Lemma shift_left_nat (m d : positive) :
  Pos.iter xO m d = Nat.iter (Pos.to_nat d) xO m.
Proof. apply Pos2Nat.inj_iter. Qed.

Lemma aligned_mantissa (m : positive) (e ez : Z) :
  (ez <= e)%Z ->
  Zpos (fst (shl_align m e ez)) = (Zpos m * 2 ^ (e - ez))%Z.
Proof.
  intros L. unfold shl_align.
  destruct (ez - e)%Z as [|n|d] eqn:D; simpl fst; try lia.
  - replace (e - ez)%Z with 0%Z by lia. simpl. lia.
  - rewrite shift_left_nat, Zpos_shifted, positive_nat_Z.
    replace (e - ez)%Z with (Zpos d) by lia. reflexivity.
Qed.

(** The square of a float64 difference is determined by the exact
    difference of the operands. *)
Lemma SFsub_by_value (x y : spec_float) (vx vy : Z) :
  valid_binary x = true -> valid_binary y = true ->
  SFscaled x = Some vx -> SFscaled y = Some vy ->
  SFsquare (SFsub prec emax x y) = SFsquare (round_scaled (vx - vy)).
Proof.
  destruct x as [sx|sx| |sx mx ex]; try discriminate;
  destruct y as [sy|sy| |sy my ey]; try discriminate;
    unfold valid_binary; simpl SpecFloat.valid_binary; simpl SFscaled;
    intros Vx Vy Ex Ey;
    injection Ex as <-; injection Ey as <-.
  - destruct sx, sy; reflexivity.
  - f_equal. simpl SFsub.
    replace (0 - cond_Zopp sy (Zpos my) * 2 ^ (ey + 1074))%Z
      with (cond_Zopp (negb sy) (Zpos my) * 2 ^ (ey + 1074))%Z
      by (destruct sy; unfold cond_Zopp, negb; ring).
    rewrite (round_scaled_canonical _ _ _ Vy). reflexivity.
  - f_equal. simpl SFsub. rewrite Z.sub_0_r.
    rewrite (round_scaled_canonical _ _ _ Vx). reflexivity.
  - f_equal. unfold SFsub.
    destruct (bounded_canonical mx ex Vx) as [_ Bx].
    destruct (bounded_canonical my ey Vy) as [_ By].
    set (ez := Z.min ex ey).
    rewrite (aligned_mantissa mx ex ez) by (unfold ez; lia).
    rewrite (aligned_mantissa my ey ez) by (unfold ez; lia).
    assert (Px : (2 ^ (ex + 1074) = 2 ^ (ex - ez) * 2 ^ (ez + 1074))%Z).
    { rewrite <- Z.pow_add_r by (unfold ez; lia). f_equal. lia. }
    assert (Py : (2 ^ (ey + 1074) = 2 ^ (ey - ez) * 2 ^ (ez + 1074))%Z).
    { rewrite <- Z.pow_add_r by (unfold ez; lia). f_equal. lia. }
    replace (cond_Zopp sx (Zpos mx) * 2 ^ (ex + 1074)
             - cond_Zopp sy (Zpos my) * 2 ^ (ey + 1074))%Z
      with ((cond_Zopp sx (Zpos mx * 2 ^ (ex - ez))
             - cond_Zopp sy (Zpos my * 2 ^ (ey - ez)))
            * 2 ^ (ez + 1074))%Z.
    + rewrite round_scaled_rescale by (unfold ez; lia). reflexivity.
    + rewrite Px, Py, <- !cond_Zopp_mul. ring.
Qed.

Lemma square_diff_by_value (a b a' b' : float) (va vb va' vb' : Z) :
  scaled a = Some va -> scaled b = Some vb ->
  scaled a' = Some va' -> scaled b' = Some vb' ->
  (va' - vb' = va - vb)%Z ->
  ((a' - b') * (a' - b'))%float = ((a - b) * (a - b))%float.
Proof.
  unfold scaled. intros A B A' B' E. apply FloatAxioms.Prim2SF_inj.
  rewrite !FloatAxioms.mul_spec, !FloatAxioms.sub_spec.
  unfold SF64mul, SF64sub. fold (SFsquare (SFsub prec emax (Prim2SF a') (Prim2SF b'))).
  fold (SFsquare (SFsub prec emax (Prim2SF a) (Prim2SF b))).
  rewrite (SFsub_by_value _ _ va' vb' (FloatAxioms.Prim2SF_valid a')
             (FloatAxioms.Prim2SF_valid b') A' B').
  rewrite (SFsub_by_value _ _ va vb (FloatAxioms.Prim2SF_valid a)
             (FloatAxioms.Prim2SF_valid b) A B).
  rewrite E. reflexivity.
Qed.

End ExactValues.

(** ** The pairwise sum of integers is their sum *)

Section IntegerSums.

Lemma Zsum_app (u v : list Z) : Zsum (u ++ v) = (Zsum u + Zsum v)%Z.
Proof. induction u as [|k u IH]; simpl; [reflexivity|]. rewrite IH. lia. Qed.

Lemma Zsum_split (k : nat) (a : list Z) :
  (Zsum (firstn k a) + Zsum (skipn k a))%Z = Zsum a.
Proof. rewrite <- Zsum_app, firstn_skipn. reflexivity. Qed.

Lemma loop_sum_Z (a : list Z) (res : Z) :
  loop_sum Z.add a res = (res + Zsum a)%Z.
Proof.
  unfold loop_sum. revert res.
  induction a as [|k a IH]; intros res; simpl; [lia|]. rewrite IH. lia.
Qed.

Lemma Zsum_zip (r a : list Z) :
  length r = length a ->
  Zsum (zip_with Z.add r a) = (Zsum r + Zsum a)%Z.
Proof.
  revert a; induction r as [|x r IH]; intros [|y a] L; simpl in *;
    try discriminate; [reflexivity|].
  injection L as L. rewrite (IH a L). lia.
Qed.

Lemma combine8_Z (r : list Z) :
  length r = 8%nat -> combine8 Z.add 0%Z r = Zsum r.
Proof.
  intros L. do 8 (destruct r as [|? r]; [discriminate L|]).
  destruct r; [|discriminate L]. simpl. lia.
Qed.

Lemma add_blocks_Z (k : nat) (r a : list Z) :
  length r = 8%nat -> (8 * k <= length a)%nat ->
  length (fst (add_blocks Z.add k r a)) = 8%nat
  /\ (Zsum (fst (add_blocks Z.add k r a))
      + Zsum (snd (add_blocks Z.add k r a)))%Z = (Zsum r + Zsum a)%Z.
Proof.
  revert r a; induction k as [|k IH]; intros r a Lr La.
  - split; [exact Lr | reflexivity].
  - change (add_blocks Z.add (S k) r a)
      with (add_blocks Z.add k (zip_with Z.add r (firstn 8 a)) (skipn 8 a)).
    assert (L8 : length (firstn 8 a) = 8%nat)
      by (apply firstn_length_le; lia).
    destruct (IH (zip_with Z.add r (firstn 8 a)) (skipn 8 a)) as [L E].
    + rewrite zip_with_length by lia. exact Lr.
    + rewrite length_skipn. lia.
    + split; [exact L|]. rewrite E, Zsum_zip by lia.
      pose proof (Zsum_split 8 a). lia.
Qed.

Lemma block_sum_Z (a : list Z) :
  (8 <= length a)%nat -> block_sum Z.add 0%Z a = Zsum a.
Proof.
  intros L. unfold block_sum.
  destruct (add_blocks_Z (length a / 8 - 1) (firstn 8 a) (skipn 8 a))
    as [Lr E].
  - apply firstn_length_le. exact L.
  - rewrite length_skipn.
    pose proof (Nat.div_mod_eq (length a) 8). lia.
  - destruct (add_blocks Z.add _ _ _) as [r rest]. cbn [fst snd] in Lr, E.
    rewrite loop_sum_Z, (combine8_Z r Lr), E. apply Zsum_split.
Qed.

(** numpy's pairwise sum adds every element exactly once. *)
Lemma pairwise_sum_Z (fuel : nat) (a : list Z) :
  pairwise_sum Z.add 0%Z fuel a = Zsum a.
Proof.
  revert a; induction fuel as [|fuel IH]; intros a; simpl.
  - destruct (length a <? 8)%nat eqn:S8; [rewrite loop_sum_Z; lia|].
    apply Nat.ltb_ge in S8.
    destruct (length a <=? 128)%nat; apply block_sum_Z, S8.
  - destruct (length a <? 8)%nat eqn:S8; [rewrite loop_sum_Z; lia|].
    apply Nat.ltb_ge in S8.
    destruct (length a <=? 128)%nat; [apply block_sum_Z, S8|].
    rewrite !IH. apply Zsum_split.
Qed.

End IntegerSums.

(** ** Integers below [2^53] are added and squared without rounding *)

Section Integers.

Lemma digits2_upper (p : positive) : (Zpos p < 2 ^ Zpos (digits2_pos p))%Z.
Proof.
  induction p as [p IH|p IH|]; simpl digits2_pos.
  - rewrite Pos2Z.inj_succ, Z.pow_succ_r by lia. lia.
  - rewrite Pos2Z.inj_succ, Z.pow_succ_r by lia. lia.
  - simpl. lia.
Qed.

(** An integer mantissa below [2^53] with an exponent in range is held
    exactly. *)
Lemma round_exact (s : bool) (p : positive) (e : Z) :
  (Zpos p < 2 ^ 53)%Z -> (-1074 <= e <= 971)%Z ->
  exists m e', binary_round prec emax s p e = S754_finite s m e'
               /\ SpecFloat.bounded prec emax m e' = true
               /\ (Zpos m * 2 ^ (e' + 1074) = Zpos p * 2 ^ (e + 1074))%Z.
Proof.
  intros Bp Be. pose proof (digits2_small p Bp) as D.
  set (e' := fexp prec emax (Zpos (digits2_pos p) + e)).
  assert (Le : (-1074 <= e' <= e)%Z).
  { unfold e', fexp, SpecFloat.emin, emax, prec. lia. }
  set (j := Z.to_nat (e - e')).
  assert (C : fexp prec emax (Zpos (digits2_pos (Nat.iter j xO p)) + e')
              = e').
  { rewrite digits2_shifted. unfold j. rewrite Z2Nat.id by lia.
    replace (Zpos (digits2_pos p) + (e - e') + e')%Z
      with (Zpos (digits2_pos p) + e)%Z by lia.
    reflexivity. }
  assert (Bd : SpecFloat.bounded prec emax (Nat.iter j xO p) e' = true).
  { unfold SpecFloat.bounded, canonical_mantissa.
    apply andb_true_intro. split.
    - apply Z.eqb_eq, C.
    - apply Z.leb_le. unfold emax, prec. lia. }
  exists (Nat.iter j xO p), e'. split; [|split; [exact Bd|]].
  - rewrite <- (binary_round_rescale s p e j).
    replace (e - Z.of_nat j)%Z with e' by (unfold j; lia).
    apply round_canonical, Bd.
  - rewrite Zpos_shifted. unfold j. rewrite Z2Nat.id by lia.
    rewrite <- Z.mul_assoc, <- Z.pow_add_r by lia.
    f_equal. f_equal. lia.
Qed.

Lemma Zfloat_exact (k : Z) :
  (0 <= k < 2 ^ 53)%Z ->
  valid_binary (Zfloat k) = true
  /\ has_sign false (Zfloat k) = true
  /\ SFscaled (Zfloat k) = Some (k * 2 ^ 1074)%Z.
Proof.
  intros B. unfold Zfloat. destruct k as [|p|p]; [| |lia].
  - repeat split.
  - simpl binary_normalize.
    destruct (round_exact false p 0) as [m [e' [-> [Bd V]]]]; [lia|lia|].
    split; [exact Bd|]. split; [reflexivity|].
    unfold SFscaled, cond_Zopp. rewrite V. reflexivity.
Qed.

Lemma SFadd_finite_by_value
    (sx : bool) (mx : positive) (ex : Z) (sy : bool) (my : positive) (ey : Z) :
  SpecFloat.bounded prec emax mx ex = true ->
  SpecFloat.bounded prec emax my ey = true ->
  SFadd prec emax (S754_finite sx mx ex) (S754_finite sy my ey)
  = round_scaled (cond_Zopp sx (Zpos mx) * 2 ^ (ex + 1074)
                  + cond_Zopp sy (Zpos my) * 2 ^ (ey + 1074)).
Proof.
  intros Vx Vy. unfold SFadd.
  destruct (bounded_canonical mx ex Vx) as [_ Bx].
  destruct (bounded_canonical my ey Vy) as [_ By].
  set (ez := Z.min ex ey).
  rewrite (aligned_mantissa mx ex ez) by (unfold ez; lia).
  rewrite (aligned_mantissa my ey ez) by (unfold ez; lia).
  assert (Px : (2 ^ (ex + 1074) = 2 ^ (ex - ez) * 2 ^ (ez + 1074))%Z).
  { rewrite <- Z.pow_add_r by (unfold ez; lia). f_equal. lia. }
  assert (Py : (2 ^ (ey + 1074) = 2 ^ (ey - ez) * 2 ^ (ez + 1074))%Z).
  { rewrite <- Z.pow_add_r by (unfold ez; lia). f_equal. lia. }
  replace (cond_Zopp sx (Zpos mx) * 2 ^ (ex + 1074)
           + cond_Zopp sy (Zpos my) * 2 ^ (ey + 1074))%Z
    with ((cond_Zopp sx (Zpos mx * 2 ^ (ex - ez))
           + cond_Zopp sy (Zpos my * 2 ^ (ey - ez)))
          * 2 ^ (ez + 1074))%Z.
  - rewrite round_scaled_rescale by (unfold ez; lia). reflexivity.
  - rewrite Px, Py, <- !cond_Zopp_mul. ring.
Qed.

(** The float64 sum of two non-negative numbers is the float64 nearest to
    their exact sum. *)
Lemma SFadd_by_value (x y : spec_float) (vx vy : Z) :
  valid_binary x = true -> valid_binary y = true ->
  has_sign false x = true -> has_sign false y = true ->
  SFscaled x = Some vx -> SFscaled y = Some vy ->
  SFadd prec emax x y = round_scaled (vx + vy).
Proof.
  destruct x as [[|]|[|]| |[|] mx ex]; try discriminate;
  destruct y as [[|]|[|]| |[|] my ey]; try discriminate;
    unfold valid_binary; simpl SpecFloat.valid_binary;
    intros Vx Vy _ _ Ex Ey; injection Ex as <-; injection Ey as <-.
  - reflexivity.
  - symmetry. exact (round_scaled_canonical false my ey Vy).
  - symmetry. rewrite Z.add_0_r.
    exact (round_scaled_canonical false mx ex Vx).
  - exact (SFadd_finite_by_value false mx ex false my ey Vx Vy).
Qed.

Lemma round_scaled_integer (K : Z) : round_scaled (K * 2 ^ 1074) = Zfloat K.
Proof. apply (round_scaled_rescale K 0). lia. Qed.

(** Non-negative integers with a sum below [2^53] are added exactly. *)
Lemma holds_integer_add (a : float) (b : Z) (a' : float) (b' : Z) :
  holds_integer a b -> holds_integer a' b' ->
  holds_integer (a + a') (b + b')%Z.
Proof.
  intros [Pb Hb] [Pb' Hb']. split; [lia|]. intros B.
  rewrite FloatAxioms.add_spec, Hb, Hb' by lia. unfold SF64add.
  destruct (Zfloat_exact b) as [V [S E]]; [lia|].
  destruct (Zfloat_exact b') as [V' [S' E']]; [lia|].
  rewrite (SFadd_by_value _ _ _ _ V V' S S' E E').
  rewrite <- Z.mul_add_distr_r.
  apply round_scaled_integer.
Qed.

Lemma holds_integer_zero : holds_integer 0 0.
Proof. split; [lia | reflexivity]. Qed.

(** The float64 sum of non-negative integers is their exact sum, as long
    as it is below [2^53]. *)
Lemma np_sum_integers (a : F64.series) (ks : list Z) :
  Forall2 holds_integer a ks -> (Zsum ks < 2 ^ 53)%Z ->
  Prim2SF (F64.np_sum a) = Zfloat (Zsum ks).
Proof.
  intros F B. unfold F64.np_sum.
  pose proof (pairwise_sum_related PrimFloat.add 0%float Z.add 0%Z
                holds_integer holds_integer_zero holds_integer_add
                (length a) a ks F) as H.
  rewrite pairwise_sum_Z in H.
  destruct (holds_integer_add _ _ _ _ holds_integer_zero H) as [_ E].
  apply E. simpl. exact B.
Qed.

Lemma of_Z_exact (k : Z) :
  (0 <= k < 2 ^ 53)%Z -> Prim2SF (F64.of_Z k) = Zfloat k.
Proof.
  intros B. unfold F64.of_Z, Zfloat.
  rewrite FloatAxioms.of_uint63_spec, Uint63.of_Z_spec.
  rewrite Z.mod_small
    by (split; [lia | change Uint63.wB with (2 ^ 63)%Z; lia]).
  reflexivity.
Qed.

Lemma shl_align_none (p : positive) (e e' : Z) :
  (e <= e')%Z -> shl_align p e e' = (p, e).
Proof.
  intros L. unfold shl_align. destruct (e' - e)%Z eqn:D; try reflexivity. lia.
Qed.

Lemma digits2_square (m : positive) :
  (2 * Zpos (digits2_pos m) - 1 <= Zpos (digits2_pos (m * m)))%Z.
Proof.
  pose proof (digits2_lower m) as L. pose proof (digits2_upper (m * m)%positive) as U.
  rewrite Pos2Z.inj_mul in U.
  assert (P : (0 < 2 ^ (Zpos (digits2_pos m) - 1))%Z)
    by (apply Z.pow_pos_nonneg; lia).
  assert (Q : (2 ^ (Zpos (digits2_pos m) - 1 + (Zpos (digits2_pos m) - 1))
               < 2 ^ Zpos (digits2_pos (m * m)))%Z).
  { rewrite Z.pow_add_r by lia. nia. }
  apply Z.pow_lt_mono_r_iff in Q; lia.
Qed.

(** The float64 square of a number is the float64 nearest to its exact
    square (in units of [2^-2148]). *)
Lemma SFsquare_by_value (x : spec_float) (vx : Z) :
  valid_binary x = true -> SFscaled x = Some vx ->
  SFsquare x = binary_normalize prec emax (vx * vx) (-2148) false.
Proof.
  destruct x as [s|s| |s m e]; try discriminate;
    unfold valid_binary; simpl SpecFloat.valid_binary; cbn [SFscaled];
    intros V E; injection E as <-.
  - destruct s; reflexivity.
  - destruct (bounded_canonical m e V) as [C B].
    pose proof (digits2_square m) as D.
    assert (N : (e + e <= fexp prec emax
                            (Zpos (digits2_pos (m * m)) + (e + e)))%Z).
    { revert C. unfold fexp, SpecFloat.emin, emax, prec. lia. }
    unfold SFsquare, SFmul.
    replace (xorb s s) with false by (destruct s; reflexivity).
    assert (R : binary_round prec emax false (m * m)%positive (e + e)%Z
                = binary_round_aux prec emax false (Zpos (m * m)) (e + e)%Z
                    loc_Exact).
    { rewrite binary_round_state, (shl_align_none _ _ _ N). reflexivity. }
    rewrite <- R.
    rewrite <- (binary_round_rescale false (m * m)%positive (e + e)%Z
                  (Z.to_nat (e + e + 2148)%Z)).
    rewrite Z2Nat.id by lia.
    replace (e + e - (e + e + 2148))%Z with (-2148)%Z by lia.
    replace (cond_Zopp s (Zpos m) * 2 ^ (e + 1074)
             * (cond_Zopp s (Zpos m) * 2 ^ (e + 1074)))%Z
      with (Zpos (Nat.iter (Z.to_nat (e + e + 2148)%Z) xO (m * m)%positive));
      [reflexivity|].
    rewrite Zpos_shifted, Z2Nat.id, Pos2Z.inj_mul by lia.
    replace (e + e + 2148)%Z with ((e + 1074) + (e + 1074))%Z by lia.
    rewrite Z.pow_add_r by lia.
    destruct s; unfold cond_Zopp; ring.
Qed.

Lemma integer_value_scaled (a : float) (k : Z) :
  integer_value a = Some k -> scaled a = Some (k * 2 ^ 1074)%Z.
Proof.
  unfold integer_value. destruct (scaled a) as [v|]; [|discriminate].
  destruct (v mod 2 ^ 1074 =? 0)%Z eqn:M; [|discriminate].
  intros E. injection E as <-. apply Z.eqb_eq in M. f_equal.
  pose proof (Z.div_mod v (2 ^ 1074)) as DM.
  assert (P : (2 ^ 1074 <> 0)%Z) by (apply Z.pow_nonzero; lia).
  specialize (DM P). rewrite M, Z.add_0_r in DM.
  rewrite Z.mul_comm. exact DM.
Qed.

(** The float64 square of the float64 difference of two integers is the
    float64 of the square of their difference. *)
Lemma square_diff_integers (a b : float) (ka kb : Z) :
  integer_value a = Some ka -> integer_value b = Some kb ->
  holds_integer ((a - b) * (a - b)) ((ka - kb) * (ka - kb)).
Proof.
  intros Ia Ib. split; [apply Z.square_nonneg|]. intros B.
  apply integer_value_scaled in Ia, Ib. unfold scaled in Ia, Ib.
  rewrite FloatAxioms.mul_spec, FloatAxioms.sub_spec.
  unfold SF64mul, SF64sub.
  fold (SFsquare (SFsub prec emax (Prim2SF a) (Prim2SF b))).
  rewrite (SFsub_by_value _ _ _ _ (FloatAxioms.Prim2SF_valid a)
             (FloatAxioms.Prim2SF_valid b) Ia Ib).
  rewrite <- Z.mul_sub_distr_r.
  rewrite round_scaled_integer. unfold Zfloat.
  set (K := (ka - kb)%Z) in *.
  assert (BK : (Z.abs K < 2 ^ 53)%Z) by nia.
  assert (X : exists vd, valid_binary (binary_normalize prec emax K 0 false)
                         = true
                         /\ SFscaled (binary_normalize prec emax K 0 false)
                            = Some vd
                         /\ (vd * vd = K * K * 2 ^ 2148)%Z).
  { destruct K as [|p|p].
    - exists 0%Z. repeat split.
    - destruct (round_exact false p 0%Z) as [m [e' [E [Bd V]]]]; [lia|lia|].
      change (0 + 1074)%Z with 1074%Z in V.
      simpl binary_normalize. rewrite E.
      exists (Zpos m * 2 ^ (e' + 1074))%Z.
      split; [exact Bd|]. split; [reflexivity|].
      rewrite V. change 2148%Z with (1074 + 1074)%Z.
      rewrite Z.pow_add_r by lia. ring.
    - destruct (round_exact true p 0%Z) as [m [e' [E [Bd V]]]]; [lia|lia|].
      change (0 + 1074)%Z with 1074%Z in V.
      simpl binary_normalize. rewrite E.
      exists (- (Zpos m * 2 ^ (e' + 1074)))%Z.
      split; [exact Bd|]. split.
      + unfold SFscaled, cond_Zopp. f_equal. ring.
      + rewrite V. change 2148%Z with (1074 + 1074)%Z.
        rewrite Z.pow_add_r by lia. change (Zneg p) with (- Zpos p)%Z. ring. }
  destruct X as [vd [Vd [Sd Q]]].
  rewrite (SFsquare_by_value _ vd Vd Sd), Q.
  pose proof (normalize_rescale (K * K)%Z 0%Z 2148%nat) as N.
  exact N.
Qed.

End Integers.

(** ** Exchanged operands, NaN operands and added zeros *)

Section Exchange.

Lemma round_aux_opp (m e : Z) (l : location) :
  binary_round_aux prec emax true m e l
  = SFopp (binary_round_aux prec emax false m e l).
Proof.
  unfold binary_round_aux.
  destruct (shr_fexp prec emax m e l) as [mrs' e'].
  destruct (shr_fexp prec emax _ e' loc_Exact) as [mrs'' e''].
  destruct (shr_m mrs''); try reflexivity.
  destruct (Z.leb e'' (Z.sub emax prec)); reflexivity.
Qed.

Lemma SFsquare_opp (r : spec_float) : SFsquare (SFopp r) = SFsquare r.
Proof. destruct r as [s|s| |s m e]; try destruct s; reflexivity. Qed.

Lemma normalize_opp (K e : Z) :
  SFsquare (binary_normalize prec emax (- K) e false)
  = SFsquare (binary_normalize prec emax K e false).
Proof.
  destruct K as [|p|p]; [reflexivity| |]; simpl; unfold binary_round;
    destruct (shl_align _ _ _) as [mz ez]; rewrite round_aux_opp.
  - apply SFsquare_opp.
  - symmetry. apply SFsquare_opp.
Qed.

(** The square of a float64 difference does not depend on the order of
    the operands, whatever they are. *)
Lemma SFsub_swap (x y : spec_float) :
  SFsquare (SFsub prec emax x y) = SFsquare (SFsub prec emax y x).
Proof.
  destruct x as [sx|sx| |sx mx ex], y as [sy|sy| |sy my ey];
    try (destruct sx; destruct sy; reflexivity);
    try (destruct sx; reflexivity); try (destruct sy; reflexivity);
    try reflexivity.
  unfold SFsub. rewrite (Z.min_comm ey ex).
  rewrite <- normalize_opp. f_equal. f_equal. lia.
Qed.

Lemma square_diff_swap (a b : float) :
  ((a - b) * (a - b))%float = ((b - a) * (b - a))%float.
Proof.
  apply FloatAxioms.Prim2SF_inj.
  rewrite !FloatAxioms.mul_spec, !FloatAxioms.sub_spec.
  apply SFsub_swap.
Qed.

Lemma is_nan_spec (a : float) :
  PrimFloat.is_nan a = true -> Prim2SF a = S754_nan.
Proof.
  unfold PrimFloat.is_nan. rewrite FloatAxioms.eqb_spec. unfold SFeqb.
  destruct (Prim2SF a) as [s|s| |s m e]; try reflexivity.
  - destruct s; discriminate.
  - destruct s; discriminate.
  - rewrite SFcompare_refl_finite. discriminate.
Qed.

(** A NaN label or prediction makes the squared difference NaN. *)
Lemma square_diff_nan (a b : float) :
  PrimFloat.is_nan a = true \/ PrimFloat.is_nan b = true ->
  PrimFloat.is_nan ((a - b) * (a - b)) = true.
Proof.
  intros H.
  assert (E : Prim2SF ((a - b) * (a - b)) = S754_nan).
  { rewrite FloatAxioms.mul_spec, FloatAxioms.sub_spec.
    unfold SF64mul, SF64sub.
    destruct H as [H|H]; apply is_nan_spec in H; rewrite H.
    - reflexivity.
    - destruct (Prim2SF a) as [s|s| |s m e]; reflexivity. }
  unfold PrimFloat.is_nan. rewrite FloatAxioms.eqb_spec, E. reflexivity.
Qed.

(** Adding [+0] on the right changes no non-negative value. *)
Lemma add_zero_nonneg (s : float) : nonneg s = true -> (s + 0)%float = s.
Proof.
  unfold nonneg. intros H. apply FloatAxioms.Prim2SF_inj.
  rewrite FloatAxioms.add_spec. change (Prim2SF 0) with (S754_zero false).
  destruct (Prim2SF s) as [[|]|[|]| |[|] m e]; try discriminate; reflexivity.
Qed.

Lemma squares_swap (y y_ : F64.series) :
  F64.series_pow2 (zip_with PrimFloat.sub y y_)
  = F64.series_pow2 (zip_with PrimFloat.sub y_ y).
Proof.
  unfold F64.series_pow2.
  revert y_; induction y as [|a y IH]; intros [|b y_]; simpl;
    try reflexivity.
  rewrite (square_diff_swap a b), IH. reflexivity.
Qed.

Lemma zip_with_append {A B C : Type} (f : A -> B -> C)
    (u1 u2 : list A) (v1 v2 : list B) :
  length u1 = length v1 ->
  zip_with f (u1 ++ u2) (v1 ++ v2) = zip_with f u1 v1 ++ zip_with f u2 v2.
Proof.
  revert v1; induction u1 as [|a u1 IH]; intros [|b v1] E; simpl in *;
    try discriminate; [reflexivity|].
  injection E as E. rewrite (IH v1 E). reflexivity.
Qed.

(** In a short array a NaN entry is left out of the mean. *)
Lemma series_mean_skips_short (d1 d2 : F64.series) (x : float) :
  Forall (fun a => nonneg a = true) d1 ->
  Forall (fun a => nonneg a = true) d2 ->
  PrimFloat.is_nan x = true ->
  (length (d1 ++ x :: d2) < 8)%nat ->
  F64.series_mean (d1 ++ x :: d2) = F64.series_mean (d1 ++ d2).
Proof.
  intros P1 P2 Nx Short.
  destruct (fill_without_nan d1 (nonneg_without_nan d1 P1)) as [M1 C1].
  destruct (fill_without_nan d2 (nonneg_without_nan d2 P2)) as [M2 C2].
  assert (Short' : (length (d1 ++ d2) < 8)%nat).
  { rewrite length_app in *. simpl in Short. lia. }
  unfold F64.series_mean.
  rewrite !map_app, !filter_app. simpl map. simpl filter.
  rewrite Nx. simpl negb. cbv iota.
  rewrite M1, M2, !length_app, C1, C2.
  replace (F64.np_sum (d1 ++ 0%float :: d2)) with (F64.np_sum (d1 ++ d2));
    [reflexivity|].
  unfold F64.np_sum. f_equal.
  rewrite !pairwise_sum_short
    by (rewrite length_app in *; simpl in *; lia).
  unfold loop_sum. rewrite !fold_left_app. simpl fold_left.
  rewrite add_zero_nonneg; [reflexivity|].
  apply (loop_sum_closed (fun v => nonneg v = true) nonneg_add);
    [exact P1 | exact nonneg_zero].
Qed.

End Exchange.

(** * Cells 8 and 12 in float64 *)

(** ** The shapes that the subtraction accepts *)

Section Shapes.

Lemma series_sub_equal_lengths (y y_ : F64.series) :
  length y = length y_ ->
  F64.series_sub y y_ = Ok (zip_with PrimFloat.sub y y_).
Proof.
  intros L. unfold F64.series_sub. rewrite L, Nat.eqb_refl. reflexivity.
Qed.

Lemma series_sub_refused (y y_ : F64.series) :
  length y <> length y_ -> length y_ <> 1%nat ->
  F64.series_sub y y_ = Raise ValueError.
Proof.
  intros Ne N1. unfold F64.series_sub.
  apply Nat.eqb_neq in Ne. rewrite Ne.
  destruct y_ as [|b [|b' y_]]; try reflexivity.
  contradiction N1; reflexivity.
Qed.

Lemma broadcast_is_repeat (y : F64.series) (b : float) :
  map (fun a => a - b)%float y
  = zip_with PrimFloat.sub y (repeat b (length y)).
Proof.
  induction y as [|a y IH]; simpl; [reflexivity|]. rewrite IH. reflexivity.
Qed.

Lemma series_sub_broadcast (y : F64.series) (b : float) :
  F64.series_sub y [b] = F64.series_sub y (repeat b (length y)).
Proof.
  rewrite (series_sub_equal_lengths y (repeat b (length y)))
    by (rewrite repeat_length; reflexivity).
  unfold F64.series_sub.
  destruct (Nat.eqb (length y) (length [b])) eqn:E.
  - apply Nat.eqb_eq in E. simpl in E. rewrite E. reflexivity.
  - rewrite broadcast_is_repeat. reflexivity.
Qed.

Lemma mse_equal_lengths (y y_ : F64.series) :
  length y = length y_ ->
  F64.mse y y_
  = Ok (F64.series_mean (F64.series_pow2 (zip_with PrimFloat.sub y y_))).
Proof.
  intros L. unfold F64.mse. rewrite (series_sub_equal_lengths y y_ L).
  reflexivity.
Qed.

Lemma squares_length (y y_ : F64.series) :
  length y = length y_ ->
  length (F64.series_pow2 (zip_with PrimFloat.sub y y_)) = length y.
Proof.
  intros L. unfold F64.series_pow2.
  rewrite length_map. apply zip_with_length, L.
Qed.

Lemma squares_not_empty (y y_ : F64.series) :
  length y = length y_ -> y <> [] ->
  F64.series_pow2 (zip_with PrimFloat.sub y y_) <> [].
Proof.
  intros L Ne E. apply (f_equal (@length float)) in E.
  rewrite (squares_length y y_ L) in E.
  destruct y; [apply Ne; reflexivity | discriminate E].
Qed.

(** On finite values the mean squared error is a non-negative number or
    [+inf]. *)
Lemma mse_value_nonneg (y y_ : F64.series) :
  all_finite y = true -> all_finite y_ = true ->
  length y = length y_ -> y <> [] -> (Z.of_nat (length y) < 2 ^ 53)%Z ->
  nonneg (F64.series_mean (F64.series_pow2 (zip_with PrimFloat.sub y y_)))
  = true.
Proof.
  intros Fy Fy_ L Ne B. apply series_mean_nonneg.
  - apply squares_nonneg; assumption.
  - apply squares_not_empty; assumption.
  - rewrite (squares_length y y_ L). exact B.
Qed.

(** On equal finite values every squared difference is [+0]. *)
Lemma squares_of_equal (y y_ : F64.series) :
  F64.same_finite y y_ ->
  Forall (fun d => d = 0%float)
         (F64.series_pow2 (zip_with PrimFloat.sub y y_)).
Proof.
  unfold F64.same_finite.
  induction 1 as [|a b y y_ [Fa E] _ IH]; simpl; constructor.
  - apply square_of_equal; assumption.
  - exact IH.
Qed.

Lemma same_finite_length (y y_ : F64.series) :
  F64.same_finite y y_ -> length y = length y_.
Proof. apply Forall2_length. Qed.

Lemma mse_of_equal (y y_ : F64.series) :
  F64.same_finite y y_ -> y <> [] -> (Z.of_nat (length y) < 2 ^ 53)%Z ->
  F64.series_mean (F64.series_pow2 (zip_with PrimFloat.sub y y_)) = 0%float.
Proof.
  intros S Ne B. pose proof (same_finite_length y y_ S) as L.
  apply series_mean_zeros.
  - apply squares_of_equal, S.
  - apply squares_not_empty; assumption.
  - rewrite (squares_length y y_ L). exact B.
Qed.

End Shapes.

(** ** Integer-valued arrays: no rounding before the division *)

Section IntegerArrays.

Lemma squares_hold_integers (y y_ : F64.series) (ks ks_ : list Z) :
  integer_values y = Some ks -> integer_values y_ = Some ks_ ->
  Forall2 holds_integer (F64.series_pow2 (zip_with PrimFloat.sub y y_))
          (sq_diffs ks ks_).
Proof.
  unfold F64.series_pow2, sq_diffs.
  revert y_ ks ks_; induction y as [|a y IH]; intros [|b y_] ks ks_ Iy Iy_;
    simpl in Iy, Iy_.
  - injection Iy as <-. constructor.
  - injection Iy as <-. constructor.
  - destruct (integer_value a), (integer_values y); try discriminate.
    injection Iy as <-. injection Iy_ as <-. constructor.
  - destruct (integer_value a) as [ka|] eqn:Ia; [|discriminate].
    destruct (integer_values y) as [ks'|] eqn:Iy'; [|discriminate].
    destruct (integer_value b) as [kb|] eqn:Ib; [|discriminate].
    destruct (integer_values y_) as [ks_'|] eqn:Iy_'; [|discriminate].
    injection Iy as <-. injection Iy_ as <-. simpl. constructor.
    + apply square_diff_integers; assumption.
    + apply IH; [reflexivity | assumption].
Qed.

Lemma Zsum_nonneg (d : F64.series) (ks : list Z) :
  Forall2 holds_integer d ks -> (0 <= Zsum ks)%Z.
Proof.
  induction 1 as [|x k d ks [P _] _ IH]; simpl; lia.
Qed.

Lemma integers_nonneg (d : F64.series) (ks : list Z) :
  Forall2 holds_integer d ks -> (Zsum ks < 2 ^ 53)%Z ->
  Forall (fun x => nonneg x = true) d.
Proof.
  induction 1 as [|x k d ks [P E] F IH]; intros B; constructor.
  - pose proof (Zsum_nonneg d ks F). simpl in B.
    unfold nonneg. rewrite E by lia.
    apply Zfloat_exact. lia.
  - apply IH. simpl in B. lia.
Qed.

(** On integer-valued arrays whose squared differences sum to less than
    [2^53], cell 8 returns the exact sum divided once, in float64, by the
    number of positions. *)
Lemma mse_on_integers (y y_ : F64.series) (ks ks_ : list Z) :
  length y = length y_ -> y <> [] ->
  integer_values y = Some ks -> integer_values y_ = Some ks_ ->
  (Zsum (sq_diffs ks ks_) < 2 ^ 53)%Z ->
  F64.mse y y_
  = Ok (F64.of_Z (Zsum (sq_diffs ks ks_)) / F64.of_nat (length y))%float.
Proof.
  intros L Ne Iy Iy_ B.
  pose proof (squares_hold_integers y y_ ks ks_ Iy Iy_) as H.
  pose proof (integers_nonneg _ _ H B) as Pos.
  rewrite (mse_equal_lengths y y_ L).
  rewrite (series_mean_without_nan _ (nonneg_without_nan _ Pos)
             (squares_not_empty y y_ L Ne)).
  rewrite (squares_length y y_ L). f_equal. f_equal.
  apply FloatAxioms.Prim2SF_inj.
  rewrite (np_sum_integers _ _ H B), of_Z_exact; [reflexivity|].
  pose proof (Zsum_nonneg _ _ H). lia.
Qed.

End IntegerArrays.

(** ** The mean squared error (cell 8) *)

(** C1, as the claim states it, fails: the arithmetic mean of the squared
    differences of [[1.5 * 2^511; 1.5 * 2^511]] and [[0; 0]] is the float64
    number [1.125 * 2^1023], but cell 8 returns [+inf], because the sum of
    the two squares overflows before it is divided. *)
Lemma mse_overflows_on_representable_mean :
  exact_mean_sq [0x1.8p511; 0x1.8p511]%float [0; 0]%float
  = exact 0x1.2p1023%float
  /\ exact 0x1.2p1023%float <> None
  /\ F64.mse [0x1.8p511; 0x1.8p511]%float [0; 0]%float = Ok infinity.
Proof.
  split; [vm_compute; reflexivity|]. split; [|vm_compute; reflexivity].
  vm_compute. discriminate.
Qed.

(** C1 (amended).  For two arrays of finite float64 values of the same
    length n >= 1, cell 8 returns the float64 quotient by n of the float64
    sum, in numpy's order, of the float64 squares
    [(y[i] - y_[i]) * (y[i] - y_[i])]; no position is left out.  For
    n < 8 the sum is taken from left to right, so the result is the
    arithmetic mean with every operation rounded to float64.  When the
    values are integers and the exact sum of the squared differences is
    below [2^53], nothing is rounded before the division: the result is
    the exact sum divided once, in float64, by n. *)
Theorem mse_float_mean_of_squares (y y_ : F64.series) :
  length y = length y_ -> y <> [] ->
  (all_finite y = true -> all_finite y_ = true ->
   F64.mse y y_
   = Ok (F64.np_sum (map (F64.sq_diff y y_) (seq 0 (length y)))
         / F64.of_nat (length y))%float
   /\ ((length y < 8)%nat -> F64.mse y y_ = Ok (F64.mean_sq_diff y y_)))
  /\ (forall ks ks_ : list Z,
      integer_values y = Some ks -> integer_values y_ = Some ks_ ->
      (Zsum (sq_diffs ks ks_) < 2 ^ 53)%Z ->
      F64.mse y y_
      = Ok (F64.of_Z (Zsum (sq_diffs ks ks_))
            / F64.of_nat (length y))%float).
Proof.
  intros L Ne. split.
  - intros Fy Fy_.
    pose proof (squares_nonneg y y_ Fy Fy_) as Pos.
    assert (E : F64.mse y y_
                = Ok (F64.np_sum (map (F64.sq_diff y y_) (seq 0 (length y)))
                      / F64.of_nat (length y))%float).
    { rewrite (mse_equal_lengths y y_ L).
      rewrite (series_mean_without_nan _ (nonneg_without_nan _ Pos)
                 (squares_not_empty y y_ L Ne)).
      rewrite (squares_length y y_ L), (squares_by_position y y_ L).
      reflexivity. }
    split; [exact E|]. intros Short. rewrite E. unfold F64.mean_sq_diff.
    rewrite (squares_by_position y y_ L) in Pos.
    unfold F64.np_sum. rewrite pairwise_sum_short
      by (rewrite length_map, length_seq; exact Short).
    rewrite zero_add_nonneg.
    + rewrite loop_sum_upto. reflexivity.
    + apply (loop_sum_closed (fun x => nonneg x = true) nonneg_add);
        [exact Pos | exact nonneg_zero].
  - intros ks ks_ Iy Iy_ B. apply mse_on_integers; assumption.
Qed.

Lemma mse_float_mean_of_squares_witness :
  F64.mse [1; 2; 3]%float [2; 2; 2]%float
  = Ok (F64.mean_sq_diff [1; 2; 3]%float [2; 2; 2]%float)
  /\ F64.mse [1; 2; 3]%float [2; 2; 2]%float
     = Ok (F64.of_Z 2 / F64.of_nat 3)%float.
Proof.
  pose proof (mse_float_mean_of_squares [1; 2; 3]%float [2; 2; 2]%float
                eq_refl ltac:(discriminate)) as [Rounded Exact].
  split.
  - apply (proj2 (Rounded eq_refl eq_refl)). simpl. lia.
  - apply (Exact [1; 2; 3]%Z [2; 2; 2]%Z); vm_compute; reflexivity.
Defined.

(** ** The root mean squared error (cell 12) *)

(** C2.  Cell 12 returns the float64 square root of what cell 8 returned,
    and a failure of cell 8 is the failure of cell 12; on two arrays of
    finite values of the same length n >= 1 cell 8 does return a value and
    the root is a number that is not negative (zero, positive or
    [+inf]). *)
Theorem rmse_float_sqrt_of_mse (y y_ : F64.series) :
  (forall m, F64.mse y y_ = Ok m -> F64.rmse y y_ = Ok (PrimFloat.sqrt m))
  /\ (forall e, F64.mse y y_ = Raise e -> F64.rmse y y_ = Raise e)
  /\ (all_finite y = true -> all_finite y_ = true ->
      length y = length y_ -> y <> [] ->
      (Z.of_nat (length y) < 2 ^ 53)%Z ->
      exists m, F64.mse y y_ = Ok m
                /\ F64.rmse y y_ = Ok (PrimFloat.sqrt m)
                /\ PrimFloat.is_nan (PrimFloat.sqrt m) = false
                /\ (0 <=? PrimFloat.sqrt m)%float = true).
Proof.
  split; [|split].
  - intros m E. unfold F64.rmse. rewrite E. reflexivity.
  - intros e E. unfold F64.rmse. rewrite E. reflexivity.
  - intros Fy Fy_ L Ne B.
    pose proof (mse_value_nonneg y y_ Fy Fy_ L Ne B) as Pos.
    exists (F64.series_mean (F64.series_pow2 (zip_with PrimFloat.sub y y_))).
    unfold F64.rmse. rewrite (mse_equal_lengths y y_ L).
    split; [reflexivity|]. split; [reflexivity|].
    split; [apply nonneg_not_nan | apply nonneg_leb]; apply nonneg_sqrt, Pos.
Qed.

Lemma rmse_float_sqrt_of_mse_witness :
  (exists m, F64.mse [1; 2; 3]%float [2; 2; 2]%float = Ok m
             /\ F64.rmse [1; 2; 3]%float [2; 2; 2]%float
                = Ok (PrimFloat.sqrt m)
             /\ PrimFloat.is_nan (PrimFloat.sqrt m) = false
             /\ (0 <=? PrimFloat.sqrt m)%float = true)
  /\ F64.rmse [1; 2; 3]%float [1; 2]%float = Raise ValueError.
Proof.
  split.
  - apply (rmse_float_sqrt_of_mse [1; 2; 3]%float [2; 2; 2]%float);
      [reflexivity | reflexivity | reflexivity | discriminate | reflexivity].
  - apply (rmse_float_sqrt_of_mse [1; 2; 3]%float [1; 2]%float).
    reflexivity.
Defined.

(** ** Lengths (cells 8 and 12) *)

(** C5, as the claim states it, fails on cells 8 and 12: two empty arrays
    are not refused, both cells return NaN; and a prediction array of
    length one against three labels is not refused either, it is broadcast
    over the labels. *)
Lemma empty_and_length_one_are_accepted :
  F64.mse [] [] = Ok PrimFloat.nan
  /\ F64.rmse [] [] = Ok PrimFloat.nan
  /\ F64.mse [1; 2; 3]%float [2]%float = Ok 0x1.5555555555555p-1%float
  /\ F64.mse [1; 2; 3]%float [2]%float
     = F64.mse [1; 2; 3]%float [2; 2; 2]%float
  /\ F64.rmse [1; 2; 3]%float [2]%float
     = F64.rmse [1; 2; 3]%float [2; 2; 2]%float.
Proof. repeat split; vm_compute; reflexivity. Qed.

(** C5 (amended, cells 8 and 12).  When the two arrays differ in length
    and the prediction array is not of length one, the subtraction raises
    the array library's ValueError and neither cell produces a value:
    nothing is truncated or padded.  A prediction array of length one is
    broadcast: the result is that of the array repeating its value at
    every position of the labels.  Two empty arrays are accepted and give
    NaN. *)
Theorem different_lengths_raise (y y_ : F64.series) :
  (length y <> length y_ -> length y_ <> 1%nat ->
   F64.mse y y_ = Raise ValueError /\ F64.rmse y y_ = Raise ValueError)
  /\ (forall b, F64.mse y [b] = F64.mse y (repeat b (length y))
                /\ F64.rmse y [b] = F64.rmse y (repeat b (length y)))
  /\ F64.mse [] [] = Ok PrimFloat.nan
  /\ F64.rmse [] [] = Ok PrimFloat.nan.
Proof.
  split; [|split; [|split; reflexivity]].
  - intros Ne N1. unfold F64.rmse, F64.mse.
    rewrite (series_sub_refused y y_ Ne N1). split; reflexivity.
  - intros b. unfold F64.rmse, F64.mse.
    rewrite (series_sub_broadcast y b). split; reflexivity.
Qed.

Lemma different_lengths_raise_witness :
  F64.mse [1; 2; 3]%float [1; 2; 3; 4]%float = Raise ValueError
  /\ F64.rmse [1; 2; 3]%float [1; 2; 3; 4]%float = Raise ValueError.
Proof.
  apply (different_lengths_raise [1; 2; 3]%float [1; 2; 3; 4]%float);
    simpl; lia.
Defined.

(** ** Perfect predictions *)




(** ** Shifted labels *)

(** C9, as the claim states it, fails: adding [2^60] to the label [1] and
    to the prediction [0] rounds both sums to [2^60]; cell 8 then returns
    0 where it returned 1 before the shift, and so does cell 12. *)
Lemma shift_changes_mse :
  F64.mse [1]%float [0]%float = Ok 1%float
  /\ F64.mse (F64.series_add_scalar [1]%float 0x1p60)
             (F64.series_add_scalar [0]%float 0x1p60) = Ok 0%float
  /\ F64.rmse [1]%float [0]%float = Ok 1%float
  /\ F64.rmse (F64.series_add_scalar [1]%float 0x1p60)
              (F64.series_add_scalar [0]%float 0x1p60) = Ok 0%float
  /\ adds_exactly 1 0x1p60 = false.
Proof. repeat split; vm_compute; reflexivity. Qed.

Lemma adds_exactly_values (a c : float) :
  adds_exactly a c = true ->
  exists va vc, scaled a = Some va /\ scaled c = Some vc
                /\ scaled (a + c) = Some (va + vc)%Z.
Proof.
  unfold adds_exactly.
  destruct (scaled a) as [va|]; [|discriminate].
  destruct (scaled c) as [vc|]; [|discriminate].
  destruct (scaled (a + c)) as [v|]; [|discriminate].
  intros E. apply Z.eqb_eq in E. subst v.
  exists va, vc. repeat split; reflexivity.
Qed.

(** Shifts without rounding leave every squared difference unchanged. *)
Lemma shifted_squares (y y_ : F64.series) (c : float) :
  exact_shift y c = true -> exact_shift y_ c = true ->
  F64.series_pow2
    (zip_with PrimFloat.sub (F64.series_add_scalar y c)
                            (F64.series_add_scalar y_ c))
  = F64.series_pow2 (zip_with PrimFloat.sub y y_).
Proof.
  unfold exact_shift, F64.series_add_scalar, F64.series_pow2.
  revert y_; induction y as [|a y IH]; intros [|b y_] Ey Ey_; simpl;
    try reflexivity.
  simpl in Ey, Ey_. apply andb_prop in Ey, Ey_.
  destruct Ey as [Ea Ey], Ey_ as [Eb Ey_].
  destruct (adds_exactly_values a c Ea) as [va [vc [Sa [Sc Sac]]]].
  destruct (adds_exactly_values b c Eb) as [vb [vc' [Sb [Sc' Sbc]]]].
  rewrite Sc in Sc'. injection Sc' as <-.
  f_equal.
  - apply (square_diff_by_value a b (a + c) (b + c) va vb
             (va + vc)%Z (vb + vc)%Z Sa Sb Sac Sbc).
    lia.
  - apply IH; assumption.
Qed.

(** C9 (amended, cells 8 and 12).  For every constant [c] and every pair
    of arrays of the same length, if the additions [y[i] + c] and
    [y_[i] + c] are all exact in float64 (finite operands, finite sums, no
    rounding), then the mean squared error and its root of
    [(y + c, y_ + c)] are those of [(y, y_)], bit for bit. *)
Theorem shift_without_rounding (y y_ : F64.series) (c : float) :
  length y = length y_ ->
  exact_shift y c = true -> exact_shift y_ c = true ->
  F64.mse (F64.series_add_scalar y c) (F64.series_add_scalar y_ c)
  = F64.mse y y_
  /\ F64.rmse (F64.series_add_scalar y c) (F64.series_add_scalar y_ c)
     = F64.rmse y y_.
Proof.
  intros L Ey Ey_.
  assert (E : F64.mse (F64.series_add_scalar y c)
                      (F64.series_add_scalar y_ c) = F64.mse y y_).
  { rewrite (mse_equal_lengths y y_ L).
    rewrite mse_equal_lengths
      by (unfold F64.series_add_scalar; rewrite !length_map; exact L).
    rewrite (shifted_squares y y_ c Ey Ey_). reflexivity. }
  split; [exact E|]. unfold F64.rmse. rewrite E. reflexivity.
Qed.

Lemma shift_without_rounding_witness :
  F64.mse (F64.series_add_scalar [1; 2.5; 3]%float 10)
          (F64.series_add_scalar [2; 2; 2]%float 10)
  = F64.mse [1; 2.5; 3]%float [2; 2; 2]%float
  /\ F64.rmse (F64.series_add_scalar [1; 2.5; 3]%float 10)
              (F64.series_add_scalar [2; 2; 2]%float 10)
     = F64.rmse [1; 2.5; 3]%float [2; 2; 2]%float.
Proof.
  apply (shift_without_rounding [1; 2.5; 3]%float [2; 2; 2]%float 10);
    reflexivity.
Defined.

(** * Further properties of cells 8 and 12 *)

(** X4.  On two arrays of finite float64 values of the same length n >= 1,
    the mean squared error and its root are numbers that are not negative:
    each is zero, positive or [+inf], never NaN and never below zero.  The
    value [+inf] does occur: the square of [2^600 - (-2^600)] overflows. *)
Theorem error_metrics_nonnegative (y y_ : F64.series) :
  (all_finite y = true -> all_finite y_ = true ->
   length y = length y_ -> y <> [] -> (Z.of_nat (length y) < 2 ^ 53)%Z ->
   exists m r, F64.mse y y_ = Ok m /\ F64.rmse y y_ = Ok r
               /\ nonneg m = true /\ nonneg r = true
               /\ (0 <=? m)%float = true /\ (0 <=? r)%float = true)
  /\ F64.mse [0x1p600]%float [-0x1p600]%float = Ok infinity
  /\ F64.rmse [0x1p600]%float [-0x1p600]%float = Ok infinity.
Proof.
  split; [|split; vm_compute; reflexivity].
  intros Fy Fy_ L Ne B.
  pose proof (mse_value_nonneg y y_ Fy Fy_ L Ne B) as Pos.
  exists (F64.series_mean (F64.series_pow2 (zip_with PrimFloat.sub y y_))).
  exists (PrimFloat.sqrt
            (F64.series_mean
               (F64.series_pow2 (zip_with PrimFloat.sub y y_)))).
  unfold F64.rmse. rewrite (mse_equal_lengths y y_ L).
  split; [reflexivity|]. split; [reflexivity|].
  split; [exact Pos|]. split; [apply nonneg_sqrt, Pos|].
  split; [apply nonneg_leb, Pos | apply nonneg_leb, nonneg_sqrt, Pos].
Qed.

Lemma error_metrics_nonnegative_witness :
  exists m r, F64.mse [1; 2; 3]%float [2; 2; 2]%float = Ok m
              /\ F64.rmse [1; 2; 3]%float [2; 2; 2]%float = Ok r
              /\ nonneg m = true /\ nonneg r = true
              /\ (0 <=? m)%float = true /\ (0 <=? r)%float = true.
Proof.
  apply (error_metrics_nonnegative [1; 2; 3]%float [2; 2; 2]%float);
    [reflexivity | reflexivity | reflexivity | discriminate | reflexivity].
Defined.

(** X6.  On two arrays of finite float64 values of the same length n >= 1
    with [y[i] == y_[i]] at every position, the root mean squared error is
    0.  It is also 0 on the different arrays [[2^-600]] and [[0]], whose
    squared difference underflows. *)
Theorem rmse_zero_if_identical (y y_ : F64.series) :
  (F64.same_finite y y_ -> y <> [] -> (Z.of_nat (length y) < 2 ^ 53)%Z ->
   F64.rmse y y_ = Ok 0%float)
  /\ F64.rmse [0x1p-600]%float [0]%float = Ok 0%float.
Proof.
  split; [|vm_compute; reflexivity].
  intros S Ne B. unfold F64.rmse.
  rewrite (mse_equal_lengths y y_ (same_finite_length y y_ S)).
  rewrite (mse_of_equal y y_ S Ne B). reflexivity.
Qed.

Lemma rmse_zero_if_identical_witness :
  F64.rmse [1; 2; 3]%float [1; 2; 3]%float = Ok 0%float.
Proof.
  apply (proj1 (rmse_zero_if_identical [1; 2; 3]%float [1; 2; 3]%float));
    [repeat constructor | discriminate | reflexivity].
Defined.

(** X18.  In float64, with fewer than 8 positions: a position where the
    label or the prediction is NaN is left out by [Series.mean()]; the
    mean squared error and its root are, bit for bit, those of the arrays
    without that position (all other values finite).  With 9 positions
    the two can differ in the last bits, because numpy groups the sum
    differently: the tenths 0.1 to 0.9 against zeros, with a NaN
    prediction at the fifth position, give [0x1.4cccccccccccep-2], and
    [0x1.4ccccccccccccp-2] once that position is removed. *)
Theorem nan_position_skipped_float64
    (y1 y2 z1 z2 : F64.series) (a b : float) :
  (length y1 = length z1 -> length y2 = length z2 ->
   all_finite (y1 ++ y2) = true -> all_finite (z1 ++ z2) = true ->
   PrimFloat.is_nan a = true \/ PrimFloat.is_nan b = true ->
   (length (y1 ++ a :: y2) < 8)%nat ->
   F64.mse (y1 ++ a :: y2) (z1 ++ b :: z2) = F64.mse (y1 ++ y2) (z1 ++ z2)
   /\ F64.rmse (y1 ++ a :: y2) (z1 ++ b :: z2)
      = F64.rmse (y1 ++ y2) (z1 ++ z2))
  /\ F64.mse nine_labels nine_guesses = Ok 0x1.4cccccccccccep-2%float
  /\ F64.mse (without_fifth nine_labels) (without_fifth nine_guesses)
     = Ok 0x1.4ccccccccccccp-2%float.
Proof.
  split; [|split; vm_compute; reflexivity].
  intros L1 L2 Fy Fz N Short.
  assert (E : F64.mse (y1 ++ a :: y2) (z1 ++ b :: z2)
              = F64.mse (y1 ++ y2) (z1 ++ z2)).
  { unfold all_finite in Fy, Fz. rewrite forallb_app in Fy, Fz.
    apply andb_prop in Fy, Fz. destruct Fy as [Fy1 Fy2], Fz as [Fz1 Fz2].
    rewrite !mse_equal_lengths
      by (rewrite !length_app; simpl; rewrite L1, L2; reflexivity).
    rewrite !zip_with_append by exact L1.
    unfold F64.series_pow2. rewrite !map_app. simpl zip_with. simpl map.
    f_equal. apply series_mean_skips_short.
    - apply squares_nonneg; assumption.
    - apply squares_nonneg; assumption.
    - apply square_diff_nan, N.
    - rewrite length_app in *. simpl in *. rewrite !length_map.
      rewrite !zip_with_length by assumption. exact Short. }
  split; [exact E|]. unfold F64.rmse. rewrite E. reflexivity.
Qed.

Lemma nan_position_skipped_float64_witness :
  F64.mse [1; 2; 3]%float [PrimFloat.nan; 0; 0]%float
  = F64.mse [2; 3]%float [0; 0]%float
  /\ F64.rmse [1; 2; 3]%float [PrimFloat.nan; 0; 0]%float
     = F64.rmse [2; 3]%float [0; 0]%float.
Proof.
  apply (proj1 (nan_position_skipped_float64
                  [] [2; 3]%float [] [0; 0]%float 1 PrimFloat.nan));
    try reflexivity; [right; reflexivity | simpl; lia].
Defined.

(** X19.  In float64, for two arrays of the same length, whatever their
    values (finite, infinite or NaN), exchanging labels and predictions
    changes neither the mean squared error nor its root, bit for bit.
    With different lengths the two orders are not alike: a prediction
    array of length one is broadcast, a label array of length one is
    refused. *)
Theorem mse_float_symmetric (y y_ : F64.series) :
  (length y = length y_ ->
   F64.mse y y_ = F64.mse y_ y /\ F64.rmse y y_ = F64.rmse y_ y)
  /\ F64.mse [1; 2; 3]%float [2]%float = Ok 0x1.5555555555555p-1%float
  /\ F64.mse [2]%float [1; 2; 3]%float = Raise ValueError.
Proof.
  split; [|split; vm_compute; reflexivity].
  intros L.
  assert (E : F64.mse y y_ = F64.mse y_ y).
  { rewrite (mse_equal_lengths y y_ L), (mse_equal_lengths y_ y (eq_sym L)).
    rewrite squares_swap. reflexivity. }
  split; [exact E|]. unfold F64.rmse. rewrite E. reflexivity.
Qed.

Lemma mse_float_symmetric_witness :
  F64.mse [1; 2; 3]%float [2; 2; 2]%float
  = F64.mse [2; 2; 2]%float [1; 2; 3]%float
  /\ F64.rmse [1; 2; 3]%float [2; 2; 2]%float
     = F64.rmse [2; 2; 2]%float [1; 2; 3]%float.
Proof.
  apply (proj1 (mse_float_symmetric [1; 2; 3]%float [2; 2; 2]%float)).
  reflexivity.
Defined.

(** * Two properties on the exact reading

    Exchanging the two arrays, and leaving out a position that holds NaN.
    Both are stated on the reading of a float64 as an extended real, for
    arrays of any length and with the mean absolute error in them.  On the
    float64 reading the first is proved above for cells 8 and 12, and the
    second for fewer than 8 positions. *)

(** ** Arrays with any float64 values *)

Section AnyValues.

Lemma npow2_nsub_sym (a b : num) : npow2 (nsub a b) = npow2 (nsub b a).
Proof.
  destruct a as [x| | |], b as [z| | |]; simpl; try reflexivity.
  f_equal. ring.
Qed.

Lemma nabs_nsub_sym (a b : num) : nabs (nsub a b) = nabs (nsub b a).
Proof.
  destruct a as [x| | |], b as [z| | |]; simpl; try reflexivity.
  f_equal. apply Rabs_minus_sym.
Qed.

Lemma map_zip_sym (g : num -> num) (u v : series) :
  (forall a b, g (nsub a b) = g (nsub b a)) ->
  map g (zip_with nsub u v) = map g (zip_with nsub v u).
Proof.
  intros Sym. revert v; induction u as [|a u IH]; intros [|b v]; simpl;
    try reflexivity.
  rewrite Sym, IH. reflexivity.
Qed.

Lemma series_sub_same_length (u v : series) :
  length u = length v -> series_sub u v = Ok (zip_with nsub u v).
Proof.
  intros E. unfold series_sub. rewrite E, Nat.eqb_refl. reflexivity.
Qed.

Lemma zip_with_app {A B C} (f : A -> B -> C)
    (u1 u2 : list A) (v1 v2 : list B) :
  length u1 = length v1 ->
  zip_with f (u1 ++ u2) (v1 ++ v2) = zip_with f u1 v1 ++ zip_with f u2 v2.
Proof.
  revert v1; induction u1 as [|a u1 IH]; intros [|b v1] E; simpl in *;
    try discriminate; [reflexivity|].
  f_equal. apply IH. congruence.
Qed.

Lemma nsub_nan_l (b : num) : nsub NaN b = NaN.
Proof. destruct b; reflexivity. Qed.

Lemma nsub_nan_r (a : num) : nsub a NaN = NaN.
Proof. destruct a; reflexivity. Qed.

(** [mean] leaves a NaN entry out. *)
Lemma series_mean_skips_nan (d1 d2 : series) :
  series_mean (d1 ++ NaN :: d2) = series_mean (d1 ++ d2).
Proof.
  unfold series_mean. rewrite !filter_app. reflexivity.
Qed.

End AnyValues.





